(** * A character-level bigram language model

    Shallow embedding of [src/bigram_model.py] and of [char_to_index],
    [index_to_char], [count_bigrams] and, from the lines of the file on,
    [load_and_preprocess_data] from [src/data_processing.py].

    Conventions of the embedding:
    - a tensor element is a [scalar]: an exact rational, or one of the IEEE
      special values [+inf], [-inf], [nan].  Arithmetic on finite values is
      exact: rounding, overflow and the sign of zero are not modelled;
    - a 2-D tensor is a list of rows; tensors live in a heap and are passed
      by reference, so that in-place operators ([+=], [/=]) and [clone] keep
      their aliasing behaviour;
    - a Python exception is a value of [exn]; fallible code returns
      [result A = A + exn];
    - dictionaries are [gmap]s; the [Counter] of [count_bigrams] is an
      association list in insertion order;
    - [torch.log] is a parameter of the development; [torch.multinomial]
      is modelled by inversion of the cumulative weights on a uniform draw
      taken from an explicit random source. *)

From Stdlib Require Import QArith Qcanon Ascii String.
From stdpp Require Import base numbers option list strings gmap fin_maps.

Local Open Scope Qc_scope.

(** ** Scalars *)

Inductive scalar : Type :=
| Fin (q : Qc)
| PInf
| NInf
| NaN.

Global Instance scalar_eq_dec : EqDecision scalar.
Proof. solve_decision. Defined.

(** A Python integer, as a tensor element or a float. *)
Definition of_nat (n : nat) : scalar := Fin (Q2Qc (inject_Z (Z.of_nat n))).

Definition szero : scalar := Fin 0.
Definition sone : scalar := Fin 1.

(** [x + y] *)
Definition sadd (x y : scalar) : scalar :=
  match x, y with
  | NaN, _ | _, NaN => NaN
  | PInf, NInf | NInf, PInf => NaN
  | PInf, _ | _, PInf => PInf
  | NInf, _ | _, NInf => NInf
  | Fin a, Fin b => Fin (a + b)
  end.

(** [- x] *)
Definition sopp (x : scalar) : scalar :=
  match x with
  | Fin a => Fin (- a)
  | PInf => NInf
  | NInf => PInf
  | NaN => NaN
  end.

(** [x / y] on tensors: division by zero raises nothing, it yields an
    infinity or, for [0 / 0], [nan]. *)
Definition sdiv (x y : scalar) : scalar :=
  match x, y with
  | NaN, _ | _, NaN => NaN
  | Fin a, Fin b =>
      if decide (b = 0) then
        if decide (a = 0) then NaN
        else if decide (0 < a) then PInf else NInf
      else Fin (a / b)
  | Fin _, (PInf | NInf) => Fin 0
  | PInf, Fin b => if decide (0 ≤ b) then PInf else NInf
  | NInf, Fin b => if decide (0 ≤ b) then NInf else PInf
  | (PInf | NInf), (PInf | NInf) => NaN
  end.

(** Finite and non-negative: what a count is, and what
    [torch.multinomial] accepts as a weight. *)
Definition finite_nonneg (x : scalar) : bool :=
  match x with
  | Fin a => bool_decide (0 ≤ a)
  | _ => false
  end.

(** [x > 0] as a test on values; [nan] compares false with everything. *)
Definition positive_s (x : scalar) : bool :=
  match x with
  | Fin a => bool_decide (0 < a)
  | PInf => true
  | NInf | NaN => false
  end.

(** [sum] of a sequence of scalars, accumulated from zero. *)
Definition ssum (l : list scalar) : scalar := fold_left sadd l szero.

(** ** Exceptions *)

Inductive exn : Type :=
| KeyError
| IndexError
| ZeroDivisionError
| RuntimeError.

Global Instance exn_eq_dec : EqDecision exn.
Proof. solve_decision. Defined.

Definition result (A : Type) : Type := A + exn.

Definition ok {A} (a : A) : result A := inl a.
Definition raise {A} (e : exn) : result A := inr e.

Definition rbind {A B} (m : result A) (k : A → result B) : result B :=
  match m with
  | inl a => k a
  | inr e => inr e
  end.

Declare Scope result_scope.
Delimit Scope result_scope with result.
Notation "'let?' x ':=' m 'in' k" :=
  (rbind m (λ x, k))
  (at level 10, x pattern, m at level 100, k at level 200) : result_scope.
Local Open Scope result_scope.

Definition of_option {A} (e : exn) (o : option A) : result A :=
  match o with
  | Some a => ok a
  | None => raise e
  end.

Definition is_ok {A} (r : result A) : Prop := ∃ a, r = ok a.

(** ** Tensors and the heap *)

Abbreviation row := (list scalar) (only parsing).
Abbreviation tensor := (list (list scalar)) (only parsing).

Abbreviation ref := nat (only parsing).

(** The heap maps references to the tensors they denote. *)
Definition alloc (h : gmap ref tensor) (t : tensor) : ref * gmap ref tensor :=
  let r := fresh (dom h) in (r, <[r := t]> h).

(** A computation over the heap that may raise. *)
Definition heap_op (A : Type) : Type := gmap ref tensor → result (A * gmap ref tensor).

Definition hret {A} (a : A) : heap_op A := λ h, ok (a, h).

Definition hbind {A B} (m : heap_op A) (k : A → heap_op B) : heap_op B :=
  λ h, match m h with
       | inl (a, h') => k a h'
       | inr e => inr e
       end.

Declare Scope heap_scope.
Delimit Scope heap_scope with heap.
Notation "'let!' x ':=' m 'in' k" :=
  (hbind m (λ x, k))
  (at level 10, x pattern, m at level 100, k at level 200) : heap_scope.
Notation "'run!' m 'in' k" :=
  (hbind m (λ _, k))
  (at level 10, m at level 100, k at level 200) : heap_scope.

(** Reading through a reference.  A reference held by a Python program
    always denotes an object; [RuntimeError] stands for a reference that the
    heap does not know, which no call below creates. *)
Definition deref (r : ref) : heap_op tensor :=
  λ h, match h !! r with
       | Some t => ok (t, h)
       | None => raise RuntimeError
       end.

Definition store (r : ref) (t : tensor) : heap_op unit :=
  λ h, ok (tt, <[r := t]> h).

Definition new (t : tensor) : heap_op ref :=
  λ h, ok (alloc h t).

(** [t.clone()] *)
Definition clone (r : ref) : heap_op ref :=
  (let! t := deref r in new t)%heap.

(** [t += s] with a number [s], broadcast over every cell, in place. *)
Definition iadd_scalar (r : ref) (s : scalar) : heap_op unit :=
  (let! t := deref r in store r (map (map (λ c, sadd c s)) t))%heap.

(** [t.sum(dim=1, keepdim=True)]: a fresh column tensor, one cell per row. *)
Definition sum_dim1_keepdim (r : ref) : heap_op ref :=
  (let! t := deref r in new (map (λ rw, [ssum rw]) t))%heap.

(** One row of [t /= d], where the divisor row either has one cell, which is
    broadcast, or as many cells as the row. *)
Definition div_row (rw d : row) : result row :=
  match d with
  | [x] => ok (map (λ c, sdiv c x) rw)
  | _ =>
      if decide (length rw = length d)
      then ok (zip_with sdiv rw d)
      else raise RuntimeError
  end.

Fixpoint div_rows (t d : tensor) : result tensor :=
  match t, d with
  | [], [] => ok []
  | rw :: t', dr :: d' =>
      let? rw' := div_row rw dr in
      let? t'' := div_rows t' d' in
      ok (rw' :: t'')
  | _, _ => raise RuntimeError
  end.

(** [t /= d], in place. *)
Definition idiv (r d : ref) : heap_op unit :=
  (let! t := deref r in
   let! dv := deref d in
   match div_rows t dv with
   | inl t' => store r t'
   | inr e => λ _, raise e
   end)%heap.

(** ** Probability model *)

(** [bigrams_count_to_probabilities(bigram_counts, smooth_factor)] *)
Definition bigrams_count_to_probabilities
    (bigram_counts : ref) (smooth_factor : scalar) : heap_op ref :=
  (let! new_tensor := clone bigram_counts in
   run! iadd_scalar new_tensor smooth_factor in
   let! rows_summed := sum_dim1_keepdim new_tensor in
   run! idiv new_tensor rows_summed in
   hret new_tensor)%heap.

(** The value denoted by the returned reference, as a function of the value
    of the argument. *)
Definition normalize_row (s : scalar) (rw : row) : row :=
  let rw' := map (λ c, sadd c s) rw in
  map (λ c, sdiv c (ssum rw')) rw'.

Definition normalized (s : scalar) (t : tensor) : tensor :=
  map (normalize_row s) t.

(** ** Vocabulary and indexing *)

(** [d[k]] on a dictionary *)
Definition dict_get (d : gmap string nat) (k : string) : result nat :=
  of_option KeyError (d !! k).

(** [t[i, j]] on a 2-D tensor *)
Definition tensor_get (t : tensor) (i j : nat) : result scalar :=
  let? rw := of_option IndexError (t !! i) in
  of_option IndexError (rw !! j).

(** [t[i, :]] *)
Definition tensor_row (t : tensor) (i : nat) : result row :=
  of_option IndexError (t !! i).

(** The one-character strings of a word, as [*word] unpacks them. *)
Fixpoint chars (word : string) : list string :=
  match word with
  | EmptyString => []
  | String c word' => String c EmptyString :: chars word'
  end.

(** [for x in xs: s = body(s, x)], stopping at the first exception. *)
Fixpoint for_each {S X} (body : S → X → result S) (xs : list X) (s : S) : result S :=
  match xs with
  | [] => ok s
  | x :: xs' => let? s' := body s x in for_each body xs' s'
  end.

(** [list(map(f, xs))] with a fallible [f] *)
Fixpoint map_result {X Y} (f : X → result Y) (xs : list X) : result (list Y) :=
  match xs with
  | [] => ok []
  | x :: xs' =>
      let? y := f x in
      let? ys := map_result f xs' in
      ok (y :: ys)
  end.

(** [char_to_index(alphabet, start_token, end_token)]: a later occurrence
    of a key overwrites an earlier one. *)
Definition char_to_index (alphabet start_token end_token : string) : gmap string nat :=
  fold_left (λ d iv, <[iv.2 := iv.1]> d)
            (imap (λ i val, (i, val)) (start_token :: chars alphabet ++ [end_token]))
            ∅.

(** ** Likelihood engine *)

(** [str.lower()], on the ASCII letters. *)
Definition lower_ascii (c : ascii) : ascii :=
  let n := nat_of_ascii c in
  if (65 <=? n)%nat && (n <=? 90)%nat then ascii_of_nat (n + 32) else c.

Fixpoint lower (s : string) : string :=
  match s with
  | EmptyString => EmptyString
  | String c s' => String (lower_ascii c) (lower s')
  end.

(** [sum(xs)] of Python: accumulates from the integer [0]. *)
Definition py_sum (xs : list scalar) : scalar := fold_left sadd xs (of_nat 0).

(** [x / n] of Python on a float and an integer: a zero divisor raises. *)
Definition py_truediv (x : scalar) (n : nat) : result scalar :=
  if decide (n = 0%nat) then raise ZeroDivisionError
  else ok (sdiv x (of_nat n)).

(** The adjacent pairs of a sequence, in order. *)
Definition adjacent_pairs {X} (l : list X) : list (X * X) := zip l (tail l).

Section likelihood.
(** [torch.log] *)
Variable log : scalar → scalar.

Definition processed (word start_token end_token : string) : list string :=
  start_token :: chars word ++ [end_token].

(** The body of the loop of [calculate_log_likelihood] at index [i]. *)
Definition log_likelihood_body
    (bigram_probabilities : tensor) (char_to_index : gmap string nat)
    (processed_word : list string) (log_likelihood : scalar) (i : nat)
    : result scalar :=
  let? a := of_option IndexError (processed_word !! i) in
  let? ia := dict_get char_to_index a in
  let? b := of_option IndexError (processed_word !! (i + 1)%nat) in
  let? ib := dict_get char_to_index b in
  let? p := tensor_get bigram_probabilities ia ib in
  ok (sadd log_likelihood (log p)).

(** [calculate_log_likelihood(word, bigram_probabilities, char_to_index,
    start_token, end_token)] *)
Definition calculate_log_likelihood
    (word : string) (bigram_probabilities : tensor)
    (char_to_index : gmap string nat) (start_token end_token : string)
    : result scalar :=
  let processed_word := processed word start_token end_token in
  for_each (log_likelihood_body bigram_probabilities char_to_index processed_word)
           (seq 0 (length processed_word - 1))
           szero.

(** [calculate_neg_mean_log_likelihood(words, bigram_probabilities,
    char_to_index, start_token, end_token)] *)
Definition calculate_neg_mean_log_likelihood
    (words : list string) (bigram_probabilities : tensor)
    (char_to_index : gmap string nat) (start_token end_token : string)
    : result scalar :=
  let calc_loglike_func x :=
    calculate_log_likelihood (lower x) bigram_probabilities char_to_index
                             start_token end_token in
  let? log_likelihoods := map_result calc_loglike_func words in
  let? mean := py_truediv (py_sum log_likelihoods) (length log_likelihoods) in
  ok (sopp mean).

(** The sum the specification describes: over each adjacent pair
    [(prev, next)] of the bracketed sequence, of
    [log(probs[char_to_index[prev]][char_to_index[next]])]. *)
Definition pair_log_prob
    (bigram_probabilities : tensor) (char_to_index : gmap string nat)
    (pr : string * string) : result scalar :=
  let? i := dict_get char_to_index pr.1 in
  let? j := dict_get char_to_index pr.2 in
  let? p := tensor_get bigram_probabilities i j in
  ok (log p).

Definition sum_of_log_probs
    (word : string) (bigram_probabilities : tensor)
    (char_to_index : gmap string nat) (start_token end_token : string)
    : result scalar :=
  let? terms := map_result (pair_log_prob bigram_probabilities char_to_index)
                           (adjacent_pairs (start_token :: chars word ++ [end_token])) in
  ok (foldr sadd szero terms).
End likelihood.

(** ** Generator *)

(** The random source: an unbounded supply of raw words; a draw takes the
    first and leaves the rest. *)
Definition rng : Type := nat → N.

Definition rng_next (g : rng) : N * rng := (g 0%nat, λ k, g (S k)).

(** A uniform draw in [[0, 1)] from the low 24 bits of a raw word. *)
Definition uniform (w : N) : Qc :=
  Q2Qc (Z.of_N (w mod 2 ^ 24) # 2 ^ 24).

(** The first index at which the running sum of the weights exceeds [t]. *)
Fixpoint pick (ws : row) (t : Qc) (i : nat) : option nat :=
  match ws with
  | [] => None
  | Fin w :: ws' => if decide (t < w) then Some i else pick ws' (t - w) (S i)
  | _ :: ws' => pick ws' t (S i)
  end.

(** [torch.multinomial(weights, num_samples=1).item()]: raises when a weight
    is negative, infinite or [nan], and when the weights sum to zero;
    otherwise index [i] is drawn with probability proportional to
    [weights[i]]. *)
Definition multinomial (weights : row) (g : rng) : result (nat * rng) :=
  if forallb finite_nonneg weights then
    match ssum weights with
    | Fin total =>
        if decide (0 < total) then
          let (w, g') := rng_next g in
          let? i := of_option RuntimeError (pick weights (uniform w * total) 0) in
          ok (i, g')
        else raise RuntimeError
    | _ => raise RuntimeError
    end
  else raise RuntimeError.

(** [sample_next_character(current_char_index, probability_distribution,
    idx_to_char)] *)
Definition sample_next_character
    (current_char_index : nat) (probability_distribution : tensor)
    (idx_to_char : gmap nat string) (g : rng) : result (string * rng) :=
  let? current_probs := tensor_row probability_distribution current_char_index in
  let? (next_char_index, g') := multinomial current_probs g in
  let? next_char := of_option KeyError (idx_to_char !! next_char_index) in
  ok (next_char, g').

Section generator.
Variables (start_token end_token : string).
Variables (char_to_idx : gmap string nat) (idx_to_char : gmap nat string).
Variable bigram_probabilities : tensor.

(** The loop of [generate_name] with [n] iterations left. *)
Fixpoint generate_loop (n : nat) (current_char generated_name : string) (g : rng)
    : result string :=
  match n with
  | O => ok generated_name
  | S n' =>
      let? i := dict_get char_to_idx current_char in
      let? (current_char', g') :=
        sample_next_character i bigram_probabilities idx_to_char g in
      if decide (current_char' = end_token) then ok generated_name
      else generate_loop n' current_char' (generated_name +:+ current_char') g'
  end.

(** [generate_name(start_token, end_token, char_to_idx, idx_to_char,
    bigram_probabilities, max_length)] *)
Definition generate_name (max_length : nat) (g : rng) : result string :=
  generate_loop max_length start_token "" g.

(** The symbols that the same loop appends, kept apart. *)
Fixpoint symbols_loop (n : nat) (current_char : string) (emitted : list string) (g : rng)
    : result (list string) :=
  match n with
  | O => ok emitted
  | S n' =>
      let? i := dict_get char_to_idx current_char in
      let? (current_char', g') :=
        sample_next_character i bigram_probabilities idx_to_char g in
      if decide (current_char' = end_token) then ok emitted
      else symbols_loop n' current_char' (emitted ++ [current_char']) g'
  end.

Definition generated_symbols (max_length : nat) (g : rng) : result (list string) :=
  symbols_loop max_length start_token [] g.

(** The chain of samples: [chain k g] is the symbol held in
    [current_char] after [k] samples, with the random source left. *)
Fixpoint chain (k : nat) (g : rng) : result (string * rng) :=
  match k with
  | O => ok (start_token, g)
  | S k' =>
      let? (c, g') := chain k' g in
      let? i := dict_get char_to_idx c in
      sample_next_character i bigram_probabilities idx_to_char g'
  end.
End generator.

(** ** Transition counter *)

(** [collections.Counter]: keys in order of first insertion. *)
Section counter.
Context {K : Type} `{EqDecision K}.

Fixpoint counter_incr (k : K) (c : list (K * nat)) : list (K * nat) :=
  match c with
  | [] => [(k, 1%nat)]
  | (k', n) :: c' =>
      if decide (k = k') then (k', S n) :: c'
      else (k', n) :: counter_incr k c'
  end.

Definition Counter (xs : list K) : list (K * nat) :=
  fold_left (λ c k, counter_incr k c) xs [].

(** [c.pop(k, None)] *)
Definition counter_pop (k : K) (c : list (K * nat)) : list (K * nat) :=
  filter (λ kv, kv.1 ≠ k) c.

(** [c[k]]: a missing key counts zero. *)
Fixpoint counter_get (k : K) (c : list (K * nat)) : nat :=
  match c with
  | [] => 0%nat
  | (k', n) :: c' => if decide (k = k') then n else counter_get k c'
  end.
End counter.

(** [torch.zeros((n, m))] *)
Definition zeros (n m : nat) : tensor := replicate n (replicate m szero).

(** [t[i, j] = v] *)
Definition tensor_set (t : tensor) (i j : nat) (v : scalar) : result tensor :=
  match t !! i with
  | Some rw =>
      if decide (j < length rw)%nat then ok (<[i := <[j := v]> rw]> t)
      else raise IndexError
  | None => raise IndexError
  end.

Definition get_bigram_index_func (char_to_idx : gmap string nat) (x : string * string)
    : option (nat * nat) :=
  match char_to_idx !! x.1, char_to_idx !! x.2 with
  | Some i, Some j => Some (i, j)
  | _, _ => None
  end.

(** The body of the loop of [count_bigrams]:
    [bigram_counts[o] = occurences[o]].  Once [None] is popped every key of
    [occurences] is a pair of indices. *)
Definition count_body (occurences : list (option (nat * nat) * nat))
    (bigram_counts : list (list scalar)) (kv : option (nat * nat) * nat)
    : result (list (list scalar)) :=
  match kv.1 with
  | Some o => tensor_set bigram_counts o.1 o.2 (of_nat (counter_get (Some o) occurences))
  | None => ok bigram_counts
  end.

(** [count_bigrams(bigrams, char_to_idx)] *)
Definition count_bigrams (bigrams : list (string * string)) (char_to_idx : gmap string nat)
    : result tensor :=
  let alphabet_length := size char_to_idx in
  let bigram_counts := zeros alphabet_length alphabet_length in
  let bigrams_indices := map (get_bigram_index_func char_to_idx) bigrams in
  let occurences := counter_pop None (Counter bigrams_indices) in
  for_each (count_body occurences) occurences bigram_counts.

(** ** The reverse vocabulary *)

(** A Python [dict] iterates over its keys in the order of their first
    insertion, and an assignment to a key that is there keeps its place:
    the items of the dictionary that [char_to_index] builds, in that order. *)
Fixpoint items_set (k : string) (v : nat) (d : list (string * nat)) : list (string * nat) :=
  match d with
  | [] => [(k, v)]
  | (k', v') :: d' =>
      if decide (k = k') then (k', v) :: d'
      else (k', v') :: items_set k v d'
  end.

(** [d[k]] on the items *)
Fixpoint items_get (k : string) (d : list (string * nat)) : option nat :=
  match d with
  | [] => None
  | (k', v) :: d' => if decide (k = k') then Some v else items_get k d'
  end.

Definition char_to_index_items (alphabet start_token end_token : string)
    : list (string * nat) :=
  fold_left (λ d iv, items_set iv.2 iv.1 d)
            (imap (λ i val, (i, val)) (start_token :: chars alphabet ++ [end_token]))
            [].

(** [index_to_char(char_to_index)]: the keys are visited in order, and a
    later key overwrites an earlier one with the same index. *)
Definition index_to_char (char_to_index : list (string * nat)) : gmap nat string :=
  fold_left (λ idx_to_char k,
               match items_get k char_to_index with
               | Some i => <[i := k]> idx_to_char
               | None => idx_to_char
               end)
            char_to_index.*1
            ∅.

(** ** Loading the corpus *)

(** [s.split(sep)] with a separator of one character: the pieces between
    the separators, empty ones included; never an empty list. *)
Fixpoint split (sep : ascii) (s : string) : list string :=
  match s with
  | EmptyString => [EmptyString]
  | String c s' =>
      if decide (c = sep) then EmptyString :: split sep s'
      else match split sep s' with
           | piece :: pieces => String c piece :: pieces
           | [] => [String c EmptyString]
           end
  end.

(** [l[:-2]] *)
Definition drop_last_two {X} (l : list X) : list X := take (length l - 2) l.

(** [s[:-1]] on a string *)
Fixpoint drop_last_char (s : string) : string :=
  match s with
  | EmptyString => EmptyString
  | String c EmptyString => EmptyString
  | String c s' => String c (drop_last_char s')
  end.

(** ["".join(word + ' ' for word in words)] *)
Definition join_spaced (words : list string) : string :=
  foldr (λ word rest, word +:+ " " +:+ rest) "" words.

(** [clean_names_func]: the line without its last two fields, lower-cased. *)
Definition clean_names_func (x : string) : string :=
  lower (drop_last_char (join_spaced (drop_last_two (split " " x)))).

(** [tokenize_func] *)
Definition tokenize_func (start_token end_token x : string) : list string :=
  start_token :: chars x ++ [end_token].

(** [bigram_func]: [[(x[i], x[i+1]) for i in range(len(x)-1)]] *)
Definition bigram_func (x : list string) : result (list (string * string)) :=
  map_result (λ i, let? a := of_option IndexError (x !! i) in
                   let? b := of_option IndexError (x !! (i + 1)%nat) in
                   ok (a, b))
             (seq 0 (length x - 1)).

(** [load_and_preprocess_data(filepath, start_token, end_token)], from the
    lines of the file, as [file.read().splitlines()] gives them. *)
Definition load_and_preprocess_data
    (lines : list string) (start_token end_token : string)
    : result (list (string * string)) :=
  let? lines_bigramized :=
    map_result (λ line, bigram_func (tokenize_func start_token end_token
                                                   (clean_names_func line)))
               lines in
  ok (concat lines_bigramized).

(** ** Notions used in the statements *)

(** The sum of a list of rationals. *)
Definition qsum (l : list Qc) : Qc := foldr Qcplus 0 l.

(** A tensor of [n] rows of [m] cells. *)
Definition shape (n m : nat) (t : tensor) : Prop :=
  length t = n ∧ Forall (λ rw : row, length rw = m) t.

(** Every index of the vocabulary addresses a row and a column. *)
Definition indices_in_range (P : tensor) (c2i : gmap string nat) : Prop :=
  ∀ c i, c2i !! c = Some i →
         (i < length P)%nat ∧ Forall (λ rw : row, (i < length rw)%nat) P.

(** The string that appending the symbols one by one builds. *)
Definition concat_symbols (syms : list string) : string := foldr String.append "" syms.

(** Every symbol of the vocabulary has a row that [torch.multinomial]
    accepts, and every index it can draw names a symbol of the vocabulary. *)
Definition samplable (c2i : gmap string nat) (i2c : gmap nat string) (P : tensor) : Prop :=
  ∀ c i, c2i !! c = Some i →
    ∃ rw, P !! i = Some rw
          ∧ Forall (λ x, finite_nonneg x = true) rw
          ∧ positive_s (ssum rw) = true
          ∧ ∀ j, (j < length rw)%nat → ∃ c', i2c !! j = Some c' ∧ is_Some (c2i !! c').

(** How many times [k] occurs in [xs]. *)
Definition occurrences {K} `{EqDecision K} (k : K) (xs : list K) : nat :=
  length (filter (λ x, x = k) xs).

(** Both symbols of the bigram are keys of the vocabulary. *)
Definition in_vocabulary (c2i : gmap string nat) (x : string * string) : Prop :=
  is_Some (c2i !! x.1) ∧ is_Some (c2i !! x.2).

Global Instance in_vocabulary_dec c2i x : Decision (in_vocabulary c2i x).
Proof. unfold in_vocabulary. apply _. Defined.

(** ** A three-symbol vocabulary to run the model on *)

Definition toy_c2i : gmap string nat := char_to_index "a" "-" ".".
Definition toy_i2c : gmap nat string := {[ 0%nat := "-"; 1%nat := "a"; 2%nat := "." ]}.

(** The start is always followed by [a], and [a] by the end; the row of the
    end is degenerate. *)
Definition toy_probs : tensor :=
  [[of_nat 0; of_nat 1; of_nat 0];
   [of_nat 0; of_nat 0; of_nat 1];
   [of_nat 0; of_nat 0; of_nat 0]].

(** The start is always followed by the start. *)
Definition loop_probs : tensor :=
  [[of_nat 1; of_nat 0; of_nat 0];
   [of_nat 0; of_nat 0; of_nat 1];
   [of_nat 0; of_nat 0; of_nat 0]].

(** Every symbol is followed by any symbol, with equal weights. *)
Definition flat_weights : tensor :=
  [[of_nat 1; of_nat 1; of_nat 1];
   [of_nat 1; of_nat 1; of_nat 1];
   [of_nat 1; of_nat 1; of_nat 1]].

Definition toy_rng : rng := λ k, N.of_nat (7 + 1000 * k).

Definition toy_counts : tensor :=
  [[of_nat 1; of_nat 3]; [of_nat 0; of_nat 0]].

Definition toy_heap : gmap ref tensor := {[ 5%nat := toy_counts ]}.

Definition toy_bigrams : list (string * string) :=
  [("-", "a"); ("a", "a"); ("a", "z"); ("a", "a"); ("a", ".")].

(** A stand-in for [torch.log] to run examples with: exact at [0], at [1]
    and on the special values, and the first term
    [2 (a - 1) / (a + 1)] of the series of the logarithm elsewhere. *)
Definition log_approx (x : scalar) : scalar :=
  match x with
  | Fin a =>
      if decide (a < 0) then NaN
      else if decide (a = 0) then NInf
      else Fin (2 * (a - 1) / (a + 1))
  | PInf => PInf
  | NInf | NaN => NaN
  end.

(** The symbols that [char_to_index] numbers, in order. *)
Definition symbols (alphabet start_token end_token : string) : list string :=
  start_token :: chars alphabet ++ [end_token].

(** The indices of the bigram, when it has both, are below the size of the
    vocabulary. *)
Definition in_bounds (c2i : gmap string nat) (x : string * string) : Prop :=
  match get_bigram_index_func c2i x with
  | Some (i, j) => (i < size c2i)%nat ∧ (j < size c2i)%nat
  | None => True
  end.

Global Instance in_bounds_dec c2i x : Decision (in_bounds c2i x).
Proof.
  unfold in_bounds. destruct (get_bigram_index_func c2i x) as [[i j]|]; apply _.
Defined.

(** [" ".join(words)] *)
Fixpoint join_words (words : list string) : string :=
  match words with
  | [] => ""
  | [w] => w
  | w :: ws => w +:+ " " +:+ join_words ws
  end.

(** The string has no space. *)
Fixpoint space_free (s : string) : bool :=
  match s with
  | EmptyString => true
  | String c s' => if decide (c = " "%char) then false else space_free s'
  end.

(** A finite value in [(0, 1]]. *)
Definition positive_probability (x : scalar) : bool :=
  match x with
  | Fin a => bool_decide (0 < a) && bool_decide (a ≤ 1)
  | _ => false
  end.

(** The model gives a positive weight to [next] after [prev]. *)
Definition possible_transition (c2i : gmap string nat) (i2c : gmap nat string)
    (P : tensor) (prev next : string) : Prop :=
  ∃ i j a, c2i !! prev = Some i
           ∧ tensor_get P i j = ok (Fin a)
           ∧ 0 < a
           ∧ i2c !! j = Some next.

(** The counts of [toy_bigrams], and a heap that holds them. *)
Definition toy_bigram_counts : tensor :=
  [[of_nat 0; of_nat 1; of_nat 0];
   [of_nat 0; of_nat 2; of_nat 1];
   [of_nat 0; of_nat 0; of_nat 0]].

Definition toy_counted_heap : gmap ref tensor := {[ 7%nat := toy_bigram_counts ]}.

(** The rows of [toy_probs] that sum to one, with a row for the end that
    returns to the start. *)
Definition toy_probs_stochastic : tensor :=
  [[of_nat 0; of_nat 1; of_nat 0];
   [of_nat 0; of_nat 0; of_nat 1];
   [of_nat 1; of_nat 0; of_nat 0]].

(** * Properties *)

(** A closed decidable statement, settled by running its decision. *)
Ltac by_computation := apply (bool_decide_unpack _); vm_compute; reflexivity.

(** ** Arithmetic of scalars *)

Lemma sadd_comm x y : sadd x y = sadd y x.
Proof. destruct x, y; simpl; try reflexivity. f_equal. apply Qcplus_comm. Qed.

Lemma sadd_assoc x y z : sadd x (sadd y z) = sadd (sadd x y) z.
Proof. destruct x, y, z; simpl; try reflexivity. f_equal. apply Qcplus_assoc. Qed.

Lemma sadd_zero_l x : sadd szero x = x.
Proof. destruct x; simpl; try reflexivity. f_equal. apply Qcplus_0_l. Qed.

Lemma sadd_zero_r x : sadd x szero = x.
Proof. rewrite sadd_comm. apply sadd_zero_l. Qed.

Lemma of_nat_0 : of_nat 0 = szero.
Proof. reflexivity. Qed.

Lemma of_nat_1 : of_nat 1 = sone.
Proof. reflexivity. Qed.

Lemma sdiv_one x : sdiv x sone = x.
Proof.
  destruct x as [a| | |]; try reflexivity.
  unfold sdiv, sone. destruct (decide (1 = 0)) as [E|_]; [discriminate E|].
  f_equal. apply Qcdiv_right_id.
Qed.

Lemma sdiv_zero_zero : sdiv szero szero = NaN.
Proof. reflexivity. Qed.

Lemma ssum_acc l a : fold_left sadd l a = sadd a (ssum l).
Proof.
  unfold ssum. revert a.
  induction l as [|x l IH]; intros a; cbn [fold_left].
  - symmetry. apply sadd_zero_r.
  - rewrite IH, (IH (sadd szero x)), sadd_zero_l. symmetry. apply sadd_assoc.
Qed.

Lemma ssum_cons x l : ssum (x :: l) = sadd x (ssum l).
Proof. unfold ssum at 1. cbn [fold_left]. rewrite ssum_acc, sadd_zero_l. reflexivity. Qed.

Lemma ssum_foldr l : ssum l = foldr sadd szero l.
Proof.
  induction l as [|x l IH]; [reflexivity|].
  rewrite ssum_cons, IH. reflexivity.
Qed.

(** ** Rows of finite cells *)

Lemma finite_nonneg_Fin x : finite_nonneg x = true → ∃ a, x = Fin a ∧ 0 ≤ a.
Proof.
  destruct x as [a| | |]; simpl; try discriminate.
  intros H. apply bool_decide_eq_true_1 in H. eauto.
Qed.

Lemma finite_row (rw : row) :
  Forall (λ c, finite_nonneg c = true) rw →
  ∃ qs, rw = map Fin qs ∧ Forall (λ a, 0 ≤ a) qs.
Proof.
  induction 1 as [|x rw Hx _ (qs & -> & IH)]; [exists []; split; constructor|].
  destruct (finite_nonneg_Fin x Hx) as (a & -> & Ha).
  exists (a :: qs). split; [reflexivity | constructor; assumption].
Qed.

Lemma ssum_Fin (l : list Qc) : ssum (map Fin l) = Fin (qsum l).
Proof.
  induction l as [|a l IH]; [reflexivity|].
  cbn [map]. rewrite ssum_cons, IH. reflexivity.
Qed.

Lemma qsum_nonneg (l : list Qc) : Forall (λ a, 0 ≤ a) l → 0 ≤ qsum l.
Proof.
  induction 1 as [|a l Ha _ IH]; [apply Qcle_refl|].
  cbn [qsum foldr]. rewrite <- (Qcplus_0_l 0). apply Qcplus_le_compat; assumption.
Qed.

Lemma qsum_div (l : list Qc) (d : Qc) :
  qsum (map (λ a, a / d) l) = qsum l / d.
Proof.
  induction l as [|a l IH]; cbn [map qsum foldr].
  - unfold Qcdiv. symmetry. apply Qcmult_0_l.
  - fold (qsum (map (λ a, a / d) l)). fold (qsum l). rewrite IH. unfold Qcdiv.
    symmetry. apply Qcmult_plus_distr_l.
Qed.

Lemma Qcdiv_nonneg (a d : Qc) : 0 ≤ a → 0 < d → 0 ≤ a / d.
Proof.
  intros Ha Hd. unfold Qcdiv. apply Qcmult_nonneg_nonneg; [assumption|].
  apply Qclt_le_weak, Qcinv_pos, Hd.
Qed.

Lemma Qcdiv_diag (d : Qc) : d ≠ 0 → d / d = 1.
Proof. intros Hd. unfold Qcdiv. apply Qcmult_inv_r, Hd. Qed.

(** ** The probability model *)

Lemma map_sadd_Fin (sq : Qc) (l : list Qc) :
  map (λ c, sadd c (Fin sq)) (map Fin l) = map Fin (map (λ a, a + sq) l).
Proof. rewrite !map_map. reflexivity. Qed.

Lemma map_sdiv_Fin (d : Qc) (l : list Qc) :
  d ≠ 0 → map (λ c, sdiv c (Fin d)) (map Fin l) = map Fin (map (λ a, a / d) l).
Proof.
  intros Hd. rewrite !map_map. apply map_ext. intros a.
  unfold sdiv. destruct (decide (d = 0)); [contradiction|reflexivity].
Qed.

(** In the exact arithmetic of [scalar], a row of counts with a positive
    smoothed sum is normalised to a row that sums to one.  This says nothing
    of the rounding and of the overflow of the float tensors of the code. *)
Lemma normalize_row_stochastic (sq : Qc) (rw : row) :
  0 ≤ sq →
  Forall (λ c, finite_nonneg c = true) rw →
  positive_s (ssum (map (λ c, sadd c (Fin sq)) rw)) = true →
  Forall (λ x, finite_nonneg x = true) (normalize_row (Fin sq) rw)
  ∧ ssum (normalize_row (Fin sq) rw) = sone.
Proof.
  intros Hs Hrw. destruct (finite_row rw Hrw) as (qs & -> & Hqs). clear Hrw.
  unfold normalize_row. rewrite map_sadd_Fin, ssum_Fin.
  set (qs' := map (λ a, a + sq) qs).
  intros Hpos. apply bool_decide_eq_true_1 in Hpos.
  assert (Hne : qsum qs' ≠ 0).
  { intros E. rewrite E in Hpos. exact (Qclt_not_eq _ _ Hpos eq_refl). }
  rewrite map_sdiv_Fin by exact Hne. split.
  - rewrite Forall_map, Forall_map. apply Forall_map.
    eapply Forall_impl; [exact Hqs|]. intros a Ha. cbn.
    apply bool_decide_eq_true_2, Qcdiv_nonneg; [|exact Hpos].
    rewrite <- (Qcplus_0_l 0). apply Qcplus_le_compat; assumption.
  - rewrite ssum_Fin, qsum_div, Qcdiv_diag by exact Hne. reflexivity.
Qed.

Lemma normalize_zero_row (rw : row) :
  Forall (λ c, c = szero) rw →
  normalize_row szero rw = map (λ _, NaN) rw.
Proof.
  intros Hrw. unfold normalize_row.
  assert (E : map (λ c, sadd c szero) rw = rw).
  { rewrite <- (map_id rw) at 2. apply map_ext. intros c. apply sadd_zero_r. }
  rewrite E.
  assert (Hsum : ssum rw = szero).
  { clear E. induction Hrw as [|x rw -> _ IH]; [reflexivity|].
    rewrite ssum_cons, IH. reflexivity. }
  rewrite Hsum. apply map_ext_Forall.
  eapply Forall_impl; [exact Hrw|]. intros c ->. reflexivity.
Qed.

Lemma div_rows_column (t : tensor) :
  div_rows t (map (λ rw, [ssum rw]) t)
  = ok (map (λ rw, map (λ c, sdiv c (ssum rw)) rw) t).
Proof.
  induction t as [|rw t IH]; [reflexivity|].
  cbn [map div_rows div_row]. rewrite IH. reflexivity.
Qed.

Lemma fresh_not_in_dom (h : gmap ref tensor) : h !! fresh (dom h) = None.
Proof. apply not_elem_of_dom, is_fresh. Qed.

(** *** One step at a time on the heap *)

Lemma hbind_ok {A B} (m : heap_op A) (k : A → heap_op B) h a h' :
  m h = ok (a, h') → hbind m k h = k a h'.
Proof. unfold hbind. intros ->. reflexivity. Qed.

Lemma clone_run (h : gmap ref tensor) (r : ref) (t : tensor) :
  h !! r = Some t →
  clone r h = ok (fresh (dom h), <[fresh (dom h) := t]> h).
Proof. intros H. unfold clone, hbind, deref, new, alloc. rewrite H. reflexivity. Qed.

Lemma iadd_scalar_run (h : gmap ref tensor) (r : ref) (t : tensor) s :
  h !! r = Some t →
  iadd_scalar r s h = ok (tt, <[r := map (map (λ c, sadd c s)) t]> h).
Proof. intros H. unfold iadd_scalar, hbind, deref, store. rewrite H. reflexivity. Qed.

Lemma sum_dim1_keepdim_run (h : gmap ref tensor) (r : ref) (t : tensor) :
  h !! r = Some t →
  sum_dim1_keepdim r h
  = ok (fresh (dom h), <[fresh (dom h) := map (λ rw, [ssum rw]) t]> h).
Proof.
  intros H. unfold sum_dim1_keepdim, hbind, deref, new, alloc. rewrite H. reflexivity.
Qed.

Lemma idiv_run (h : gmap ref tensor) (r d : ref) (t dv t' : tensor) :
  h !! r = Some t → h !! d = Some dv → div_rows t dv = ok t' →
  idiv r d h = ok (tt, <[r := t']> h).
Proof.
  intros Hr Hd Hdiv. unfold idiv, hbind, deref, store.
  rewrite Hr. unfold ok. cbv beta iota. rewrite Hd. cbv beta iota.
  rewrite Hdiv. reflexivity.
Qed.

(** What a call does to the heap: it allocates, and leaves what was there. *)
Lemma bigrams_count_to_probabilities_run (h : gmap ref tensor) (bc : ref) (t : tensor) s :
  h !! bc = Some t →
  ∃ r h',
    bigrams_count_to_probabilities bc s h = ok (r, h')
    ∧ h !! r = None
    ∧ h' !! r = Some (normalized s t)
    ∧ ∀ l, is_Some (h !! l) → h' !! l = h !! l.
Proof.
  intros Hbc.
  set (r := fresh (dom h)).
  set (t1 := map (map (λ c, sadd c s)) t).
  set (h1 := <[r := t]> h).
  set (h2 := <[r := t1]> h1).
  set (r2 := fresh (dom h2)).
  set (h3 := <[r2 := map (λ rw, [ssum rw]) t1]> h2).
  assert (Hr : h !! r = None) by apply fresh_not_in_dom.
  assert (Hr2 : h2 !! r2 = None) by apply fresh_not_in_dom.
  assert (Hne : r2 ≠ r).
  { intros E. rewrite E in Hr2. unfold h2 in Hr2.
    rewrite lookup_insert_eq in Hr2. discriminate. }
  exists r, (<[r := normalized s t]> h3).
  split; [|split; [exact Hr|split]].
  - unfold bigrams_count_to_probabilities.
    rewrite (hbind_ok _ _ _ _ _ (clone_run h bc t Hbc)). fold r h1.
    rewrite (hbind_ok _ _ _ _ _ (iadd_scalar_run h1 r t s (lookup_insert_eq _ _ _))).
    fold t1 h2.
    rewrite (hbind_ok _ _ _ _ _ (sum_dim1_keepdim_run h2 r t1 (lookup_insert_eq _ _ _))).
    fold r2 h3.
    assert (H3r : h3 !! r = Some t1).
    { unfold h3. rewrite lookup_insert_ne by exact Hne. apply lookup_insert_eq. }
    rewrite (hbind_ok _ _ _ _ _
               (idiv_run h3 r r2 _ _ _ H3r (lookup_insert_eq _ _ _) (div_rows_column t1))).
    unfold hret, normalized, t1. rewrite map_map. reflexivity.
  - apply lookup_insert_eq.
  - intros l [v Hl].
    assert (l ≠ r) by (intros ->; rewrite Hr in Hl; discriminate).
    assert (l ≠ r2).
    { intros ->. unfold h2, h1 in Hr2. rewrite !lookup_insert_ne in Hr2 by congruence.
      rewrite Hr2 in Hl. discriminate. }
    unfold h3, h2, h1. rewrite !lookup_insert_ne by congruence. reflexivity.
Qed.

Lemma lookup_map {A B} (f : A → B) (l : list A) (i : nat) :
  map f l !! i = f <$> l !! i.
Proof.
  revert i. induction l as [|x l IH]; intros [|i]; try reflexivity. apply IH.
Qed.

(** C9: [bigrams_count_to_probabilities] does not mutate its input.  On any
    heap where [bigram_counts] denotes a tensor [t], and for any smoothing
    value, the call returns a reference other than [bigram_counts]; after it
    [bigram_counts] still denotes [t], and so does every reference that was
    allocated before the call: the function works on a copy. *)
Theorem bigrams_count_to_probabilities_keeps_input
    (h : gmap ref tensor) (bigram_counts : ref) (t : tensor) (smooth_factor : scalar) :
  h !! bigram_counts = Some t →
  ∃ r h',
    bigrams_count_to_probabilities bigram_counts smooth_factor h = ok (r, h')
    ∧ r ≠ bigram_counts
    ∧ h' !! bigram_counts = Some t
    ∧ ∀ l, is_Some (h !! l) → h' !! l = h !! l.
Proof.
  intros Hbc.
  destruct (bigrams_count_to_probabilities_run h bigram_counts t smooth_factor Hbc)
    as (r & h' & Hrun & Hfresh & _ & Hframe).
  exists r, h'. split; [exact Hrun|]. split; [|split].
  - intros ->. rewrite Hbc in Hfresh. discriminate.
  - rewrite <- Hbc. apply Hframe. rewrite Hbc. eauto.
  - exact Hframe.
Qed.

Lemma bigrams_count_to_probabilities_keeps_input_witness :
  toy_heap !! 5%nat = Some toy_counts
  ∧ ∃ r h',
      bigrams_count_to_probabilities 5%nat szero toy_heap = ok (r, h')
      ∧ r ≠ 5%nat
      ∧ h' !! 5%nat = Some toy_counts
      ∧ ∀ l, is_Some (toy_heap !! l) → h' !! l = toy_heap !! l.
Proof.
  split; [reflexivity|].
  apply (bigrams_count_to_probabilities_keeps_input toy_heap 5%nat toy_counts szero).
  reflexivity.
Defined.

(** The code does not do what C3 asks for: with smoothing [0] an all-zero
    row of the input is not an all-zero row of the result.  The input is
    [toy_counts], whose second row is [[0; 0]]. *)
Lemma zero_row_is_not_kept_zero :
  ¬ ∀ (h : gmap ref tensor) (bigram_counts : ref) (t : tensor) (i : nat) (rw : row),
      h !! bigram_counts = Some t →
      t !! i = Some rw →
      Forall (λ c, c = szero) rw →
      ∃ r h' p prow,
        bigrams_count_to_probabilities bigram_counts szero h = ok (r, h')
        ∧ h' !! r = Some p
        ∧ p !! i = Some prow
        ∧ Forall (λ c, c = szero) prow.
Proof.
  intros claim.
  destruct (claim toy_heap 5%nat toy_counts 1%nat [szero; szero])
    as (r & h' & p & prow & Hrun & Hr & Hi & Hz); [reflexivity|reflexivity|repeat constructor|].
  destruct (bigrams_count_to_probabilities_run toy_heap 5%nat toy_counts szero eq_refl)
    as (r0 & h0 & Hrun0 & _ & Hr0 & _).
  rewrite Hrun in Hrun0. injection Hrun0 as <- <-.
  rewrite Hr in Hr0. injection Hr0 as ->.
  injection Hi as <-.
  inversion Hz as [|? ? Hnan _]. discriminate Hnan.
Qed.

(** The defect behind C3, on every input: with smoothing [0], an all-zero
    row of the input becomes a row of the same length whose every entry is
    [nan], because the division by the zero row sum is not guarded.  Such a
    row is no probability distribution, which the docstring of the function
    promises every row to be. *)
Theorem zero_row_becomes_nan
    (h : gmap ref tensor) (bigram_counts : ref) (t : tensor) (i : nat) (rw : row) :
  h !! bigram_counts = Some t →
  t !! i = Some rw →
  Forall (λ c, c = szero) rw →
  ∃ r h' p,
    bigrams_count_to_probabilities bigram_counts szero h = ok (r, h')
    ∧ h' !! r = Some p
    ∧ p !! i = Some (replicate (length rw) NaN).
Proof.
  intros Hbc Hi Hz.
  destruct (bigrams_count_to_probabilities_run h bigram_counts t szero Hbc)
    as (r & h' & Hrun & _ & Hr & _).
  exists r, h', (normalized szero t).
  split; [exact Hrun|]. split; [exact Hr|].
  unfold normalized. rewrite lookup_map, Hi. cbn [fmap option_fmap option_map]. f_equal.
  rewrite (normalize_zero_row rw Hz).
  clear. induction rw as [|x rw IH]; [reflexivity|]. cbn. f_equal. exact IH.
Qed.

Lemma zero_row_becomes_nan_witness :
  toy_heap !! 5%nat = Some toy_counts
  ∧ toy_counts !! 1%nat = Some [szero; szero]
  ∧ Forall (λ c, c = szero) [szero; szero]
  ∧ ∃ r h' p,
      bigrams_count_to_probabilities 5%nat szero toy_heap = ok (r, h')
      ∧ h' !! r = Some p
      ∧ p !! 1%nat = Some (replicate (length [szero; szero]) NaN).
Proof.
  assert (Hz : Forall (λ c, c = szero) [szero; szero]) by (repeat constructor).
  split; [reflexivity|]. split; [reflexivity|]. split; [exact Hz|].
  apply (zero_row_becomes_nan toy_heap 5%nat toy_counts 1%nat [szero; szero] eq_refl eq_refl Hz).
Defined.

(** C3: the failing input.  The counts of [toy_bigrams], as
    [count_bigrams] returns them, have an all-zero row for the end token,
    which starts no bigram; with the default smoothing [0],
    [bigrams_count_to_probabilities] returns [nan] in that whole row, where
    C3 asks for zeros. *)
Theorem end_token_row_is_nan :
  count_bigrams toy_bigrams toy_c2i = ok toy_bigram_counts
  ∧ toy_bigram_counts !! 2%nat = Some [szero; szero; szero]
  ∧ ∃ r h' p,
      bigrams_count_to_probabilities 7%nat szero toy_counted_heap = ok (r, h')
      ∧ h' !! r = Some p
      ∧ p !! 2%nat = Some [NaN; NaN; NaN].
Proof.
  split; [by_computation|]. split; [reflexivity|].
  destruct (bigrams_count_to_probabilities_run toy_counted_heap 7%nat toy_bigram_counts
              szero eq_refl) as (r & h' & Hrun & _ & Hr & _).
  exists r, h', (normalized szero toy_bigram_counts).
  split; [exact Hrun|]. split; [exact Hr|]. reflexivity.
Qed.

Section likelihood_facts.
Variable log : scalar → scalar.
Variables (P : list (list scalar)) (c2i : gmap string nat).

Lemma log_likelihood_body_pair (pre : list string) (x y : string) (l : list string) acc :
  log_likelihood_body log P c2i (pre ++ x :: y :: l) acc (length pre)
  = let? v := pair_log_prob log P c2i (x, y) in ok (sadd acc v).
Proof.
  unfold log_likelihood_body, pair_log_prob.
  rewrite list_lookup_middle by reflexivity.
  assert (E : (pre ++ x :: y :: l) !! (length pre + 1)%nat = Some y).
  { replace (pre ++ x :: y :: l) with ((pre ++ [x]) ++ y :: l)
      by (rewrite <- app_assoc; reflexivity).
    apply list_lookup_middle. rewrite length_app. reflexivity. }
  rewrite E. cbn [of_option rbind ok fst snd].
  destruct (dict_get c2i x) as [i|e]; [|reflexivity]. cbn [rbind].
  destruct (dict_get c2i y) as [j|e]; [|reflexivity]. cbn [rbind].
  destruct (tensor_get P i j) as [p|e]; reflexivity.
Qed.

(** The loop over indices visits the adjacent pairs in order. *)
Lemma loop_adjacent_pairs (l pre : list string) (acc : scalar) :
  for_each (log_likelihood_body log P c2i (pre ++ l))
           (seq (length pre) (length l - 1)) acc
  = let? terms := map_result (pair_log_prob log P c2i) (adjacent_pairs l) in
    ok (fold_left sadd terms acc).
Proof.
  revert pre acc. induction l as [|x l IH]; intros pre acc; [reflexivity|].
  destruct l as [|y l]; [reflexivity|].
  replace (length (x :: y :: l) - 1)%nat with (S (length l)) by (cbn; lia).
  cbn [seq for_each]. rewrite log_likelihood_body_pair.
  change (adjacent_pairs (x :: y :: l)) with ((x, y) :: adjacent_pairs (y :: l)).
  cbn [map_result].
  destruct (pair_log_prob log P c2i (x, y)) as [v|e]; [|reflexivity].
  cbn [rbind ok].
  specialize (IH (pre ++ [x]) (sadd acc v)).
  rewrite <- app_assoc, length_app in IH. cbn [app length] in IH.
  replace (length pre + 1)%nat with (S (length pre)) in IH by lia.
  replace (S (length l) - 1)%nat with (length l) in IH by lia.
  rewrite IH.
  destruct (map_result (pair_log_prob log P c2i) (adjacent_pairs (y :: l))); reflexivity.
Qed.
End likelihood_facts.

(** ** The likelihood engine *)

Section likelihood_claims.
Variable log : scalar → scalar.

Lemma calculate_log_likelihood_unfold word P c2i start_token end_token :
  calculate_log_likelihood log word P c2i start_token end_token
  = let? terms := map_result (pair_log_prob log P c2i)
                             (adjacent_pairs (start_token :: chars word ++ [end_token])) in
    ok (ssum terms).
Proof.
  unfold calculate_log_likelihood, processed.
  apply (loop_adjacent_pairs log P c2i _ [] szero).
Qed.

Lemma pair_log_prob_ok P c2i (pr : string * string) :
  indices_in_range P c2i →
  is_Some (c2i !! pr.1) → is_Some (c2i !! pr.2) →
  is_ok (pair_log_prob log P c2i pr).
Proof.
  intros Hr [i Hi] [j Hj]. unfold pair_log_prob, dict_get.
  rewrite Hi, Hj. cbn [of_option rbind ok].
  destruct (Hr _ _ Hi) as [Hlt _]. destruct (Hr _ _ Hj) as [_ Hcols].
  unfold tensor_get.
  destruct (lookup_lt_is_Some_2 P i Hlt) as [rw Hrw]. rewrite Hrw. cbn [of_option rbind ok].
  assert (Hj' : (j < length rw)%nat).
  { eapply Forall_lookup_1 in Hcols; [exact Hcols|exact Hrw]. }
  destruct (lookup_lt_is_Some_2 rw j Hj') as [p Hp]. rewrite Hp.
  eexists. reflexivity.
Qed.

Lemma map_result_ok {X Y} (f : X → result Y) (xs : list X) :
  Forall (λ x, is_ok (f x)) xs → is_ok (map_result f xs).
Proof.
  induction 1 as [|x xs [y Hy] _ [ys IH]]; [eexists; reflexivity|].
  cbn [map_result]. rewrite Hy, IH. eexists. reflexivity.
Qed.

Lemma Forall_adjacent_pairs {X} (Q : X → Prop) (l : list X) :
  Forall Q l → Forall (λ pr, Q pr.1 ∧ Q pr.2) (adjacent_pairs l).
Proof.
  induction 1 as [|x l Hx Hl IH]; [constructor|].
  destruct Hl as [|y l Hy Hl]; [constructor|].
  change (adjacent_pairs (x :: y :: l)) with ((x, y) :: adjacent_pairs (y :: l)).
  constructor; [split; assumption|exact IH].
Qed.

(** C1: for a word whose characters, and the two tokens, are keys of
    [char_to_index], [calculate_log_likelihood] is the sum over the adjacent
    pairs [(prev, next)] of [start_token :: characters ++ [end_token]] of
    [log(probs[char_to_index[prev]][char_to_index[next]])]; when moreover the
    indices of the vocabulary are within the matrix, that sum is a value and
    no exception. *)
Theorem calculate_log_likelihood_is_sum_of_logs
    (word : string) (bigram_probabilities : list (list scalar))
    (char_to_index : gmap string nat) (start_token end_token : string) :
  Forall (λ c, is_Some (char_to_index !! c)) (start_token :: chars word ++ [end_token]) →
  calculate_log_likelihood log word bigram_probabilities char_to_index
                           start_token end_token
  = sum_of_log_probs log word bigram_probabilities char_to_index start_token end_token
  ∧ (indices_in_range bigram_probabilities char_to_index →
     is_ok (calculate_log_likelihood log word bigram_probabilities char_to_index
                                     start_token end_token)).
Proof.
  intros Hvocab. rewrite calculate_log_likelihood_unfold. unfold sum_of_log_probs.
  split.
  - destruct (map_result _ _) as [terms|e]; [|reflexivity].
    cbn [rbind]. rewrite ssum_foldr. reflexivity.
  - intros Hr.
    destruct (map_result_ok (pair_log_prob log bigram_probabilities char_to_index)
                (adjacent_pairs (start_token :: chars word ++ [end_token]))) as [terms ->].
    + eapply Forall_impl; [apply Forall_adjacent_pairs, Hvocab|].
      intros pr [H1 H2]. apply pair_log_prob_ok; assumption.
    + eexists. reflexivity.
Qed.

(** C5: on a single word [w], [calculate_neg_mean_log_likelihood] is the
    negative of the log-likelihood that [calculate_log_likelihood] computes
    for the lower-cased word, with the same exception when that raises; for
    a word that is already lower-case it is the negative of the word's own
    log-likelihood. *)
Theorem neg_mean_log_likelihood_single
    (w : string) (bigram_probabilities : list (list scalar))
    (char_to_index : gmap string nat) (start_token end_token : string) :
  calculate_neg_mean_log_likelihood log [w] bigram_probabilities char_to_index
                                    start_token end_token
  = (let? ll := calculate_log_likelihood log (lower w) bigram_probabilities
                                         char_to_index start_token end_token in
     ok (sopp ll))
  ∧ (lower w = w →
     calculate_neg_mean_log_likelihood log [w] bigram_probabilities char_to_index
                                       start_token end_token
     = let? ll := calculate_log_likelihood log w bigram_probabilities
                                           char_to_index start_token end_token in
       ok (sopp ll)).
Proof.
  assert (E : calculate_neg_mean_log_likelihood log [w] bigram_probabilities char_to_index
                start_token end_token
              = let? ll := calculate_log_likelihood log (lower w) bigram_probabilities
                                                    char_to_index start_token end_token in
                ok (sopp ll)).
  { unfold calculate_neg_mean_log_likelihood. cbn [map_result].
    destruct (calculate_log_likelihood log (lower w) _ _ _ _) as [ll|e]; [|reflexivity].
    cbn [rbind ok length]. unfold py_truediv, py_sum.
    destruct (decide (1%nat = 0%nat)) as [E|_]; [discriminate E|].
    cbn [fold_left rbind ok]. rewrite of_nat_0, of_nat_1, sadd_zero_l, sdiv_one.
    reflexivity. }
  split; [exact E|]. intros Hlow. rewrite E, Hlow. reflexivity.
Qed.

(** C8: on the empty list of words [calculate_neg_mean_log_likelihood]
    raises [ZeroDivisionError], the division of the empty sum by the length
    [0]; it returns no number. *)
Theorem neg_mean_log_likelihood_empty
    (bigram_probabilities : list (list scalar))
    (char_to_index : gmap string nat) (start_token end_token : string) :
  calculate_neg_mean_log_likelihood log [] bigram_probabilities char_to_index
                                    start_token end_token
  = raise ZeroDivisionError.
Proof. reflexivity. Qed.
End likelihood_claims.

Lemma toy_word_in_vocabulary :
  Forall (λ c, is_Some (toy_c2i !! c)) ("-" :: chars "a" ++ ["."]).
Proof. repeat constructor; by_computation. Qed.

Lemma calculate_log_likelihood_is_sum_of_logs_witness :
  Forall (λ c, is_Some (toy_c2i !! c)) ("-" :: chars "a" ++ ["."])
  ∧ calculate_log_likelihood log_approx "a" toy_probs toy_c2i "-" "."
    = sum_of_log_probs log_approx "a" toy_probs toy_c2i "-" "."
  ∧ (indices_in_range toy_probs toy_c2i →
     is_ok (calculate_log_likelihood log_approx "a" toy_probs toy_c2i "-" ".")).
Proof.
  split; [exact toy_word_in_vocabulary|].
  apply (calculate_log_likelihood_is_sum_of_logs
           log_approx "a" toy_probs toy_c2i "-" "." toy_word_in_vocabulary).
Defined.

(** The start is always followed by [a] and [a] by the end: the
    log-likelihood of ["a"] is [log 1 + log 1 = 0]. *)
Example log_likelihood_of_a :
  calculate_log_likelihood log_approx "a" toy_probs toy_c2i "-" "." = ok szero.
Proof. by_computation. Qed.

(** An upper-case word is scored as its lower-case form, which the
    log-likelihood of the word as written is not. *)
Example upper_case_word_is_lowered :
  calculate_neg_mean_log_likelihood log_approx ["A"] toy_probs toy_c2i "-" "."
  = ok (sopp szero)
  ∧ calculate_log_likelihood log_approx "A" toy_probs toy_c2i "-" "." = raise KeyError.
Proof. split; by_computation. Qed.

Lemma append_empty_r (s : string) : s +:+ "" = s.
Proof.
  induction s as [|a s IH]; [reflexivity|].
  change (String a (s +:+ "") = String a s). f_equal. exact IH.
Qed.

Lemma append_assoc (s t u : string) : s +:+ (t +:+ u) = (s +:+ t) +:+ u.
Proof.
  induction s as [|a s IH]; [reflexivity|].
  change (String a (s +:+ (t +:+ u)) = String a ((s +:+ t) +:+ u)). f_equal. exact IH.
Qed.

Lemma concat_symbols_snoc (syms : list string) (c : string) :
  concat_symbols (syms ++ [c]) = concat_symbols syms +:+ c.
Proof.
  induction syms as [|x syms IH].
  - change (c +:+ "" = c). apply append_empty_r.
  - change (x +:+ concat_symbols (syms ++ [c]) = (x +:+ concat_symbols syms) +:+ c).
    rewrite IH. apply append_assoc.
Qed.

(** ** Sampling *)

Lemma ssum_zero_row (rw : list scalar) : Forall (λ c, c = szero) rw → ssum rw = szero.
Proof.
  induction 1 as [|x rw -> _ IH]; [reflexivity|].
  rewrite ssum_cons, IH. reflexivity.
Qed.

Lemma multinomial_zero_row (weights : list scalar) (g : rng) :
  Forall (λ c, c = szero) weights → multinomial weights g = raise RuntimeError.
Proof.
  intros Hz. unfold multinomial. rewrite (ssum_zero_row _ Hz).
  destruct (forallb finite_nonneg weights); reflexivity.
Qed.

Section generator_facts.
Variables (start_token end_token : string).
Variables (c2i : gmap string nat) (i2c : gmap nat string).
Variable P : list (list scalar).

Local Abbreviation chain_here := (chain start_token c2i i2c P).

Lemma chain_S k g0 c g :
  chain_here k g0 = ok (c, g) →
  chain_here (S k) g0 = let? i := dict_get c2i c in sample_next_character i P i2c g.
Proof. intros H. cbn [chain]. rewrite H. reflexivity. Qed.

Lemma chain_ok_S k g0 : is_ok (chain_here (S k) g0) → is_ok (chain_here k g0).
Proof.
  cbn [chain]. destruct (chain_here k g0) as [[c g]|e]; [eexists; reflexivity|].
  intros [a Ha]. discriminate Ha.
Qed.

Lemma chain_ok_le k d g0 : is_ok (chain_here (k + d) g0) → is_ok (chain_here k g0).
Proof.
  induction d as [|d IH].
  - rewrite Nat.add_0_r. auto.
  - rewrite Nat.add_succ_r. intros H. apply IH, chain_ok_S, H.
Qed.

(** The string built by the loop is the concatenation of the symbols. *)
Lemma generate_loop_symbols n cur emitted g :
  generate_loop end_token c2i i2c P n cur (concat_symbols emitted) g
  = let? syms := symbols_loop end_token c2i i2c P n cur emitted g in
    ok (concat_symbols syms).
Proof.
  revert cur emitted g. induction n as [|n IH]; intros cur emitted g; [reflexivity|].
  cbn [generate_loop symbols_loop].
  destruct (dict_get c2i cur) as [i|e]; [|reflexivity]. cbn [rbind].
  destruct (sample_next_character i P i2c g) as [[c g']|e]; [|reflexivity]. cbn [rbind].
  destruct (decide (c = end_token)); [reflexivity|].
  rewrite <- concat_symbols_snoc. apply IH.
Qed.

(** What the loop has appended when it returns. *)
Lemma symbols_loop_spec n k cur emitted g0 g syms :
  chain_here k g0 = ok (cur, g) →
  symbols_loop end_token c2i i2c P n cur emitted g = ok syms →
  ∃ new,
    syms = emitted ++ new
    ∧ (length new ≤ n)%nat
    ∧ (∀ j c, new !! j = Some c →
              c ≠ end_token ∧ ∃ g', chain_here (k + S j) g0 = ok (c, g'))
    ∧ ((length new < n)%nat → ∃ g', chain_here (k + S (length new)) g0 = ok (end_token, g')).
Proof.
  revert k cur emitted g syms.
  induction n as [|n IH]; intros k cur emitted g syms Hk Hloop.
  - injection Hloop as <-. exists []. rewrite app_nil_r.
    split; [reflexivity|]. split; [cbn; lia|]. split.
    + intros j c Hj. discriminate Hj.
    + cbn. lia.
  - cbn [symbols_loop] in Hloop. pose proof (chain_S k g0 cur g Hk) as HS.
    destruct (dict_get c2i cur) as [i|e]; [|discriminate Hloop]. cbn [rbind] in Hloop, HS.
    destruct (sample_next_character i P i2c g) as [[c g']|e]; [|discriminate Hloop].
    cbn [rbind] in Hloop.
    destruct (decide (c = end_token)) as [->|Hne].
    + injection Hloop as <-. exists []. rewrite app_nil_r.
      split; [reflexivity|]. split; [cbn; lia|]. split.
      * intros j c Hj. discriminate Hj.
      * intros _. exists g'. cbn [length]. rewrite Nat.add_1_r. exact HS.
    + destruct (IH (S k) c (emitted ++ [c]) g' syms HS Hloop)
        as (new & -> & Hlen & Hnew & Hstop).
      exists (c :: new). rewrite <- app_assoc.
      split; [reflexivity|]. split; [cbn; lia|]. split.
      * intros [|j] c' Hj.
        -- injection Hj as <-. split; [exact Hne|]. exists g'.
           rewrite Nat.add_1_r. exact HS.
        -- destruct (Hnew j c' Hj) as [Hc' [g'' Hch]]. split; [exact Hc'|].
           exists g''. rewrite Nat.add_succ_r. exact Hch.
      * cbn [length]. intros Hlt. destruct Hstop as [g'' Hch]; [lia|].
        exists g''. rewrite Nat.add_succ_r. exact Hch.
Qed.

(** A degenerate row met before the loop is over makes it raise. *)
Lemma generate_loop_degenerate d n k cur name g0 g c g' i rw :
  chain_here k g0 = ok (cur, g) →
  (d < n)%nat →
  chain_here (k + d) g0 = ok (c, g') →
  (∀ j c' g'', (k < j ≤ k + d)%nat → chain_here j g0 = ok (c', g'') → c' ≠ end_token) →
  c2i !! c = Some i →
  P !! i = Some rw →
  Forall (λ x, x = szero) rw →
  generate_loop end_token c2i i2c P n cur name g = raise RuntimeError.
Proof.
  intros Hk Hd Hreach Hnoend Hi Hrw Hz.
  revert n k cur name g Hk Hd Hreach Hnoend.
  induction d as [|d IH]; intros n k cur name g Hk Hd Hreach Hnoend.
  - rewrite Nat.add_0_r, Hk in Hreach. injection Hreach as -> ->.
    destruct n as [|n]; [lia|]. cbn [generate_loop].
    unfold dict_get. rewrite Hi. cbn [of_option rbind ok].
    unfold sample_next_character, tensor_row. rewrite Hrw. cbn [of_option rbind ok].
    rewrite (multinomial_zero_row rw g' Hz). reflexivity.
  - destruct n as [|n]; [lia|]. cbn [generate_loop].
    pose proof (chain_S k g0 cur g Hk) as HS.
    assert (Hok : is_ok (chain_here (S k) g0)).
    { apply (chain_ok_le (S k) d). rewrite Nat.add_succ_r in Hreach.
      cbn [Nat.add]. rewrite Hreach. eexists. reflexivity. }
    destruct Hok as [[c1 g1] Hc1]. rewrite Hc1 in HS.
    destruct (dict_get c2i cur) as [i1|e]; [|discriminate HS]. cbn [rbind] in HS |- *.
    rewrite <- HS. cbn [rbind ok].
    assert (Hne : c1 ≠ end_token).
    { apply (Hnoend (S k) c1 g1); [lia|exact Hc1]. }
    destruct (decide (c1 = end_token)); [contradiction|].
    apply (IH n (S k)); [exact Hc1|lia| |].
    + rewrite Nat.add_succ_r in Hreach. exact Hreach.
    + intros j c' g'' Hj. apply Hnoend. lia.
Qed.
End generator_facts.

(** ** The generator *)

Lemma generate_name_spec start_token end_token c2i i2c P max_length g out :
  generate_name start_token end_token c2i i2c P max_length g = ok out →
  ∃ syms,
    generated_symbols start_token end_token c2i i2c P max_length g = ok syms
    ∧ out = concat_symbols syms
    ∧ (length syms ≤ max_length)%nat
    ∧ (∀ j c, syms !! j = Some c →
              c ≠ end_token ∧ ∃ g', chain start_token c2i i2c P (S j) g = ok (c, g'))
    ∧ ((length syms < max_length)%nat →
       ∃ g', chain start_token c2i i2c P (S (length syms)) g = ok (end_token, g')).
Proof.
  unfold generate_name, generated_symbols. intros Hout.
  change (String.EmptyString) with (concat_symbols []) in Hout.
  rewrite generate_loop_symbols in Hout.
  destruct (symbols_loop end_token c2i i2c P max_length start_token [] g) as [syms|e] eqn:Hs;
    [|discriminate Hout].
  injection Hout as <-. exists syms. split; [reflexivity|]. split; [reflexivity|].
  destruct (symbols_loop_spec start_token end_token c2i i2c P max_length 0 start_token [] g g syms
              eq_refl Hs) as (new & -> & Hlen & Hnew & Hstop).
  cbn [app]. split; [exact Hlen|]. split; assumption.
Qed.



(** C4, as stated, fails: the start token can be part of the output.  On
    [loop_probs] the start is always followed by the start, and three
    iterations return ["---"]. *)
Lemma start_token_is_generated :
  ¬ ∀ (start_token end_token : string) (char_to_idx : gmap string nat)
      (idx_to_char : gmap nat string) (bigram_probabilities : list (list scalar))
      (max_length : nat) (g : rng) (out : string),
      (0 < max_length)%nat →
      generate_name start_token end_token char_to_idx idx_to_char bigram_probabilities
                    max_length g = ok out →
      ∃ syms,
        generated_symbols start_token end_token char_to_idx idx_to_char
                          bigram_probabilities max_length g = ok syms
        ∧ out = concat_symbols syms
        ∧ (end_token ∉ syms)
        ∧ (start_token ∉ syms).
Proof.
  intros claim.
  destruct (claim "-" "." toy_c2i toy_i2c loop_probs 3%nat toy_rng "---")
    as (syms & Hsyms & _ & _ & Hstart); [lia|vm_compute; reflexivity|].
  assert (E : generated_symbols "-" "." toy_c2i toy_i2c loop_probs 3 toy_rng
              = ok ["-"; "-"; "-"]) by (vm_compute; reflexivity).
  rewrite E in Hsyms. injection Hsyms as <-.
  apply Hstart. constructor.
Qed.

(** C4, amended: the end token never occurs among the symbols of the
    output; every other sampled symbol, the start token included, is
    appended: the [j]-th symbol of the output is the [j]-th sample. *)
Theorem generate_name_excludes_end
    (start_token end_token : string) (char_to_idx : gmap string nat)
    (idx_to_char : gmap nat string) (bigram_probabilities : list (list scalar))
    (max_length : nat) (g : rng) (out : string) :
  generate_name start_token end_token char_to_idx idx_to_char bigram_probabilities
                max_length g = ok out →
  ∃ syms,
    generated_symbols start_token end_token char_to_idx idx_to_char bigram_probabilities
                      max_length g = ok syms
    ∧ out = concat_symbols syms
    ∧ (end_token ∉ syms)
    ∧ (∀ j c, syms !! j = Some c →
              ∃ g', chain start_token char_to_idx idx_to_char bigram_probabilities
                          (S j) g = ok (c, g')).
Proof.
  intros Hout.
  destruct (generate_name_spec _ _ _ _ _ _ _ _ Hout) as (syms & Hs & Hc & _ & Hnew & _).
  exists syms. split; [exact Hs|]. split; [exact Hc|]. split.
  - intros Hin. apply list_elem_of_lookup in Hin as [j Hj].
    destruct (Hnew j end_token Hj) as [Hne _]. apply Hne. reflexivity.
  - intros j c Hj. destruct (Hnew j c Hj) as [_ Hch]. exact Hch.
Qed.

Lemma generate_name_excludes_end_witness :
  generate_name "-" "." toy_c2i toy_i2c loop_probs 3 toy_rng = ok "---"
  ∧ ∃ syms,
      generated_symbols "-" "." toy_c2i toy_i2c loop_probs 3 toy_rng = ok syms
      ∧ "---" = concat_symbols syms
      ∧ ("." ∉ syms)
      ∧ (∀ j c, syms !! j = Some c →
                ∃ g', chain "-" toy_c2i toy_i2c loop_probs (S j) toy_rng = ok (c, g')).
Proof.
  assert (Hrun : generate_name "-" "." toy_c2i toy_i2c loop_probs 3 toy_rng = ok "---")
    by (vm_compute; reflexivity).
  split; [exact Hrun|].
  apply (generate_name_excludes_end "-" "." toy_c2i toy_i2c loop_probs 3 toy_rng "---" Hrun).
Defined.

(** C7: sampling from a row whose entries are all zero raises
    [RuntimeError] and returns no symbol; and [generate_name] raises it as
    soon as the chain reaches, before [max_length] samples and before any end
    token, a symbol whose row is all zero. *)
Theorem degenerate_row_raises
    (probability_distribution : list (list scalar)) (i : nat) (rw : list scalar) :
  probability_distribution !! i = Some rw →
  Forall (λ x, x = szero) rw →
  (∀ (idx_to_char : gmap nat string) (g : rng),
      sample_next_character i probability_distribution idx_to_char g = raise RuntimeError)
  ∧ (∀ (start_token end_token : string) (char_to_idx : gmap string nat)
       (idx_to_char : gmap nat string) (max_length k : nat) (g g' : rng) (c : string),
        (k < max_length)%nat →
        chain start_token char_to_idx idx_to_char probability_distribution k g = ok (c, g') →
        (∀ j c' g'', (0 < j ≤ k)%nat →
                     chain start_token char_to_idx idx_to_char probability_distribution j g
                     = ok (c', g'') →
                     c' ≠ end_token) →
        char_to_idx !! c = Some i →
        generate_name start_token end_token char_to_idx idx_to_char
                      probability_distribution max_length g = raise RuntimeError).
Proof.
  intros Hrw Hz. split.
  - intros idx_to_char g. unfold sample_next_character, tensor_row.
    rewrite Hrw. cbn [of_option rbind ok].
    rewrite (multinomial_zero_row rw g Hz). reflexivity.
  - intros start_token end_token char_to_idx idx_to_char max_length k g g' c
           Hk Hreach Hnoend Hi.
    unfold generate_name.
    apply (generate_loop_degenerate start_token end_token char_to_idx idx_to_char
             probability_distribution k max_length 0 start_token "" g g c g' i rw);
      [reflexivity|exact Hk|exact Hreach|exact Hnoend|exact Hi|exact Hrw|exact Hz].
Qed.

Lemma degenerate_row_raises_witness :
  toy_probs !! 2%nat = Some [of_nat 0; of_nat 0; of_nat 0]
  ∧ Forall (λ x, x = szero) [of_nat 0; of_nat 0; of_nat 0]
  ∧ (∀ (idx_to_char : gmap nat string) (g : rng),
        sample_next_character 2 toy_probs idx_to_char g = raise RuntimeError)
  ∧ (∀ (start_token end_token : string) (char_to_idx : gmap string nat)
       (idx_to_char : gmap nat string) (max_length k : nat) (g g' : rng) (c : string),
        (k < max_length)%nat →
        chain start_token char_to_idx idx_to_char toy_probs k g = ok (c, g') →
        (∀ j c' g'', (0 < j ≤ k)%nat →
                     chain start_token char_to_idx idx_to_char toy_probs j g = ok (c', g'') →
                     c' ≠ end_token) →
        char_to_idx !! c = Some 2%nat →
        generate_name start_token end_token char_to_idx idx_to_char
                      toy_probs max_length g = raise RuntimeError).
Proof.
  assert (Hz : Forall (λ x, x = szero) [of_nat 0; of_nat 0; of_nat 0])
    by (repeat constructor).
  split; [reflexivity|]. split; [exact Hz|].
  apply (degenerate_row_raises toy_probs 2%nat [of_nat 0; of_nat 0; of_nat 0] eq_refl Hz).
Defined.

(** A run that reaches a degenerate row: the end symbol used as start. *)
Example generate_name_from_degenerate_row :
  generate_name "." "-" toy_c2i toy_i2c toy_probs 5 toy_rng = raise RuntimeError.
Proof. vm_compute. reflexivity. Qed.

Lemma uniform_range (w : N) : 0 ≤ uniform w ∧ uniform w < 1.
Proof.
  unfold uniform.
  assert (Hlt : (Z.of_N (w mod 2 ^ 24) < 2 ^ 24)%Z).
  { change (2 ^ 24)%Z with (Z.of_N (2 ^ 24)). apply N2Z.inj_lt.
    apply N.mod_lt. discriminate. }
  assert (Hge : (0 <= Z.of_N (w mod 2 ^ 24))%Z) by apply N2Z.is_nonneg.
  set (z := Z.of_N (w mod 2 ^ 24)) in *. clearbody z.
  split.
  - unfold Qcle. cbn [this Q2Qc]. rewrite !Qred_correct.
    unfold Qle. cbn. lia.
  - unfold Qclt. cbn [this Q2Qc]. rewrite !Qred_correct.
    unfold Qlt. cbn. lia.
Qed.

Lemma pick_finds (qs : list Qc) (t : Qc) (i0 : nat) :
  Forall (λ a, 0 ≤ a) qs → 0 ≤ t → t < qsum qs →
  ∃ j, pick (map Fin qs) t i0 = Some j ∧ (i0 ≤ j < i0 + length qs)%nat.
Proof.
  intros Hqs. revert t i0.
  induction Hqs as [|w qs Hw _ IH]; intros t i0 Ht Hlt.
  - exfalso. exact (Qcle_not_lt _ _ Ht Hlt).
  - cbn [map pick]. destruct (decide (t < w)) as [Htw|Htw].
    + exists i0. split; [reflexivity|]. cbn [length]. lia.
    + apply Qcnot_lt_le in Htw.
      destruct (IH (t - w) (S i0)) as (j & Hj & Hrange).
      * unfold Qcminus. rewrite <- (Qcplus_opp_r w).
        apply Qcplus_le_compat; [exact Htw|apply Qcle_refl].
      * cbn [qsum foldr] in Hlt. fold (qsum qs) in Hlt.
        apply (proj2 (Qcplus_lt_mono_r (t - w) (qsum qs) w)).
        unfold Qcminus. rewrite <- Qcplus_assoc, (Qcplus_comm (- w)), Qcplus_opp_r,
          Qcplus_0_r, (Qcplus_comm (qsum qs)). exact Hlt.
      * exists j. split; [exact Hj|]. cbn [length]. lia.
Qed.

Lemma forallb_Forall {A} (f : A → bool) (l : list A) :
  Forall (λ x, f x = true) l → forallb f l = true.
Proof.
  induction 1 as [|x l Hx _ IH]; [reflexivity|]. cbn. rewrite Hx, IH. reflexivity.
Qed.

Lemma multinomial_returns (weights : list scalar) (g : rng) :
  Forall (λ c, finite_nonneg c = true) weights →
  positive_s (ssum weights) = true →
  ∃ i, multinomial weights g = ok (i, (rng_next g).2) ∧ (i < length weights)%nat.
Proof.
  intros Hw Hpos. unfold multinomial.
  rewrite (forallb_Forall _ _ Hw).
  destruct (finite_row weights Hw) as (qs & -> & Hqs).
  rewrite ssum_Fin in Hpos |- *. apply bool_decide_eq_true_1 in Hpos.
  rewrite decide_True by exact Hpos. cbn [rng_next].
  destruct (uniform_range (g 0%nat)) as [Hu0 Hu1].
  destruct (pick_finds qs (uniform (g 0%nat) * qsum qs) 0) as (j & -> & Hj).
  - exact Hqs.
  - apply Qcmult_nonneg_nonneg; [exact Hu0|apply Qclt_le_weak, Hpos].
  - rewrite <- (Qcmult_1_l (qsum qs)) at 2. apply Qcmult_lt_compat_r; assumption.
  - exists j. split; [reflexivity|]. rewrite length_map. lia.
Qed.

Lemma generate_loop_returns end_token c2i i2c P n cur name g :
  samplable c2i i2c P →
  is_Some (c2i !! cur) →
  is_ok (generate_loop end_token c2i i2c P n cur name g).
Proof.
  intros Hwf. revert cur name g.
  induction n as [|n IH]; intros cur name g [i Hi]; [eexists; reflexivity|].
  cbn [generate_loop]. unfold dict_get. rewrite Hi. cbn [of_option rbind ok].
  destruct (Hwf cur i Hi) as (rw & Hrw & Hfin & Hpos & Hback).
  unfold sample_next_character, tensor_row. rewrite Hrw. cbn [of_option rbind ok].
  destruct (multinomial_returns rw g Hfin Hpos) as (j & -> & Hj). cbn [rbind ok].
  destruct (Hback j Hj) as (c' & -> & Hc'). cbn [of_option rbind ok].
  destruct (decide (c' = end_token)); [eexists; reflexivity|].
  apply IH, Hc'.
Qed.

(** On a vocabulary whose rows can all be sampled, a name is returned. *)
Lemma generate_name_returns start_token end_token c2i i2c P max_length g :
  samplable c2i i2c P →
  is_Some (c2i !! start_token) →
  is_ok (generate_name start_token end_token c2i i2c P max_length g).
Proof. intros Hwf Hs. apply generate_loop_returns; assumption. Qed.

Lemma toy_samplable : samplable toy_c2i toy_i2c flat_weights.
Proof.
  intros c i Hi. exists [of_nat 1; of_nat 1; of_nat 1].
  assert (Hlt : (i < 3)%nat).
  { assert (H : map_Forall (λ _ i, (i < 3)%nat) toy_c2i) by by_computation.
    exact (H c i Hi). }
  split; [|split; [|split]].
  - destruct i as [|[|[|i]]]; [reflexivity..|lia].
  - repeat constructor.
  - reflexivity.
  - intros j Hj. cbn [length] in Hj.
    destruct j as [|[|[|j]]]; [| | |lia]; eexists; (split; [reflexivity|]);
      by_computation.
Qed.

(** Whatever the random source, fifteen iterations on [flat_weights]
    return a name. *)
Example generate_name_flat_returns (g : rng) :
  is_ok (generate_name "-" "." toy_c2i toy_i2c flat_weights 15 g).
Proof. apply generate_name_returns; [exact toy_samplable|by_computation]. Qed.


(** ** The counter *)

Section counter_facts.
Context {K : Type} `{EqDecision K}.
Implicit Types (k : K) (c : list (K * nat)) (xs : list K).

Lemma counter_get_incr k k' c :
  counter_get k (counter_incr k' c)
  = if decide (k = k') then S (counter_get k c) else counter_get k c.
Proof.
  induction c as [|[k1 n] c IH]; cbn [counter_incr counter_get].
  - destruct (decide (k = k')); reflexivity.
  - destruct (decide (k' = k1)) as [->|Hne]; cbn [counter_get].
    + destruct (decide (k = k1)); reflexivity.
    + destruct (decide (k = k1)) as [->|Hne1].
      * destruct (decide (k1 = k')); [congruence|reflexivity].
      * exact IH.
Qed.

Lemma counter_keys_incr k c :
  (counter_incr k c).*1 = if decide (k ∈ c.*1) then c.*1 else c.*1 ++ [k].
Proof.
  induction c as [|[k1 n] c IH]; cbn [counter_incr].
  - destruct (decide (k ∈ [])) as [Hin|_]; [inversion Hin|reflexivity].
  - destruct (decide (k = k1)) as [->|Hne].
    + rewrite decide_True by (cbn; left). reflexivity.
    + cbn [fmap list_fmap fst]. fold (fmap (M:=list) (@fst K nat)).
      change (list_fmap _ _ fst (counter_incr k c)) with ((counter_incr k c).*1).
      rewrite IH.
      destruct (decide (k ∈ c.*1)) as [Hin|Hnin].
      * rewrite decide_True by (cbn; right; exact Hin). reflexivity.
      * rewrite decide_False; [reflexivity|].
        cbn. rewrite elem_of_cons. intros [?|?]; contradiction.
Qed.

Lemma counter_get_absent k c : k ∉ c.*1 → counter_get k c = 0%nat.
Proof.
  induction c as [|[k1 n] c IH]; [reflexivity|].
  cbn. rewrite not_elem_of_cons. intros [Hne Hnin].
  destruct (decide (k = k1)); [contradiction|]. apply IH, Hnin.
Qed.

Lemma counter_get_fold k xs c :
  counter_get k (fold_left (λ c k, counter_incr k c) xs c)
  = (counter_get k c + occurrences k xs)%nat.
Proof.
  unfold occurrences. revert c.
  induction xs as [|x xs IH]; intros c; cbn [fold_left].
  - cbn. lia.
  - rewrite IH, counter_get_incr.
    destruct (decide (k = x)) as [->|Hne].
    + rewrite filter_cons_True by reflexivity. cbn. lia.
    + rewrite filter_cons_False by congruence. reflexivity.
Qed.

Lemma counter_get_Counter k xs : counter_get k (Counter xs) = occurrences k xs.
Proof. unfold Counter. rewrite counter_get_fold. reflexivity. Qed.

Lemma counter_keys_fold k xs c :
  k ∈ (fold_left (λ c k, counter_incr k c) xs c).*1 → k ∈ c.*1 ∨ k ∈ xs.
Proof.
  revert c. induction xs as [|x xs IH]; intros c; cbn [fold_left]; [auto|].
  intros Hin. destruct (IH _ Hin) as [Hc|Hxs].
  - rewrite counter_keys_incr in Hc.
    destruct (decide (x ∈ c.*1)); [left; exact Hc|].
    apply elem_of_app in Hc as [Hc|Hc]; [left; exact Hc|].
    apply list_elem_of_singleton in Hc as ->. right. left.
  - right. right. exact Hxs.
Qed.

Lemma counter_keys_Counter k xs : k ∈ (Counter xs).*1 → k ∈ xs.
Proof.
  intros Hin. destruct (counter_keys_fold k xs [] Hin) as [Hc|Hxs]; [inversion Hc|exact Hxs].
Qed.

Lemma counter_pop_incr k k' c :
  counter_pop k (counter_incr k' c)
  = if decide (k' = k) then counter_pop k c else counter_incr k' (counter_pop k c).
Proof.
  unfold counter_pop.
  induction c as [|[k1 n] c IH]; cbn [counter_incr].
  - destruct (decide (k' = k)) as [->|Hne].
    + rewrite filter_cons_False by (cbn; auto). reflexivity.
    + rewrite filter_cons_True by exact Hne. reflexivity.
  - destruct (decide (k' = k1)) as [->|Hne1].
    + destruct (decide (k1 = k)) as [->|Hne].
      * rewrite !filter_cons_False by (cbn; auto). reflexivity.
      * rewrite !filter_cons_True by exact Hne. cbn [counter_incr].
        rewrite decide_True by reflexivity. reflexivity.
    + destruct (decide (k1 = k)) as [->|Hne].
      * rewrite !filter_cons_False by (cbn; auto). exact IH.
      * rewrite !filter_cons_True by exact Hne. rewrite IH.
        destruct (decide (k' = k)); [reflexivity|].
        cbn [counter_incr]. rewrite decide_False by exact Hne1. reflexivity.
Qed.

Lemma counter_pop_fold k xs c :
  counter_pop k (fold_left (λ c k, counter_incr k c) xs c)
  = fold_left (λ c k, counter_incr k c) (filter (λ x, x ≠ k) xs) (counter_pop k c).
Proof.
  revert c. induction xs as [|x xs IH]; intros c; [reflexivity|].
  cbn [fold_left]. rewrite IH, counter_pop_incr.
  destruct (decide (x = k)) as [->|Hne].
  - rewrite filter_cons_False by auto. reflexivity.
  - rewrite filter_cons_True by exact Hne. reflexivity.
Qed.

(** Popping a key is counting the list without it. *)
Lemma counter_pop_Counter k xs :
  counter_pop k (Counter xs) = Counter (filter (λ x, x ≠ k) xs).
Proof. unfold Counter. rewrite counter_pop_fold. reflexivity. Qed.
End counter_facts.

(** ** Cells of a tensor *)

Lemma zeros_shape n m : shape n m (zeros n m).
Proof.
  unfold shape, zeros. split; [apply length_replicate|].
  apply Forall_replicate, length_replicate.
Qed.

Lemma tensor_get_zeros n m i j :
  (i < n)%nat → (j < m)%nat → tensor_get (zeros n m) i j = ok szero.
Proof.
  intros Hi Hj. unfold tensor_get, zeros.
  rewrite lookup_replicate_2 by exact Hi. cbn [of_option rbind ok].
  rewrite lookup_replicate_2 by exact Hj. reflexivity.
Qed.

Lemma tensor_set_spec n m (t : list (list scalar)) i j v :
  shape n m t → (i < n)%nat → (j < m)%nat →
  ∃ t',
    tensor_set t i j v = ok t'
    ∧ shape n m t'
    ∧ ∀ i' j', tensor_get t' i' j'
               = if decide ((i', j') = (i, j)) then ok v else tensor_get t i' j'.
Proof.
  intros [Hn Hm] Hi Hj. unfold tensor_set.
  destruct (lookup_lt_is_Some_2 t i) as [rw Hrw]; [lia|]. rewrite Hrw.
  assert (Hlen : length rw = m).
  { eapply Forall_lookup_1 in Hm; [exact Hm|exact Hrw]. }
  rewrite decide_True by lia. eexists. split; [reflexivity|]. split.
  - split; [rewrite length_insert; exact Hn|].
    apply Forall_insert; [exact Hm|]. rewrite length_insert. exact Hlen.
  - intros i' j'. unfold tensor_get.
    destruct (decide (i' = i)) as [->|Hne].
    + rewrite list_lookup_insert_eq by lia. cbn [of_option rbind ok].
      destruct (decide (j' = j)) as [->|Hnej].
      * rewrite decide_True by reflexivity.
        rewrite list_lookup_insert_eq by lia. reflexivity.
      * rewrite decide_False by congruence.
        rewrite list_lookup_insert_ne by congruence. rewrite Hrw. reflexivity.
    + rewrite decide_False by congruence.
      rewrite list_lookup_insert_ne by congruence. reflexivity.
Qed.

(** ** The transition counter *)

Section count_bigrams_facts.
Variable c2i : gmap string nat.
Variable c : list (option (nat * nat) * nat).

Lemma fill_counts n (l : list (option (nat * nat) * nat)) (t : list (list scalar)) :
  shape n n t →
  Forall (λ kv, ∃ i j, kv.1 = Some (i, j) ∧ (i < n)%nat ∧ (j < n)%nat) l →
  ∃ t',
    for_each (count_body c) l t = ok t'
    ∧ shape n n t'
    ∧ ∀ i j, tensor_get t' i j
             = if decide (Some (i, j) ∈ l.*1)
               then ok (of_nat (counter_get (Some (i, j)) c))
               else tensor_get t i j.
Proof.
  intros Ht Hl. revert t Ht.
  induction Hl as [|kv l (i0 & j0 & Hkv & Hi0 & Hj0) _ IH]; intros t Ht.
  - exists t. split; [reflexivity|]. split; [exact Ht|].
    intros i j. rewrite decide_False; [reflexivity|]. intros Hin. inversion Hin.
  - cbn [for_each]. unfold count_body at 1. rewrite Hkv. cbn [fst snd].
    destruct (tensor_set_spec n n t i0 j0 (of_nat (counter_get (Some (i0, j0)) c))
                Ht Hi0 Hj0) as (t1 & -> & Ht1 & Hget1).
    cbn [rbind ok].
    destruct (IH t1 Ht1) as (t' & Hrun & Ht' & Hget').
    exists t'. split; [exact Hrun|]. split; [exact Ht'|].
    intros i j. rewrite Hget', Hget1. rewrite fmap_cons, Hkv.
    destruct (decide (Some (i, j) ∈ l.*1)) as [Hin|Hnin].
    + rewrite decide_True by (right; exact Hin). reflexivity.
    + destruct (decide ((i, j) = (i0, j0))) as [E|Hne].
      * rewrite decide_True by (rewrite E; left). injection E as -> ->. reflexivity.
      * rewrite decide_False; [reflexivity|].
        rewrite elem_of_cons. intros [E|?]; [|contradiction]. congruence.
Qed.
End count_bigrams_facts.


Lemma get_bigram_index_Some c2i i j x :
  get_bigram_index_func c2i x = Some (i, j) ↔ c2i !! x.1 = Some i ∧ c2i !! x.2 = Some j.
Proof.
  unfold get_bigram_index_func.
  destruct (c2i !! x.1), (c2i !! x.2); split; try intros [? ?]; try intros ?;
    try split; congruence.
Qed.


Lemma occurrences_map {A B} `{EqDecision B} (f : A → B) (k : B) (l : list A) :
  occurrences k (map f l) = length (filter (λ x, f x = k) l).
Proof.
  unfold occurrences. induction l as [|x l IH]; [reflexivity|]. cbn [map].
  destruct (decide (f x = k)) as [E|Hne].
  - rewrite !filter_cons_True by exact E. cbn. rewrite IH. reflexivity.
  - rewrite !filter_cons_False by exact Hne. exact IH.
Qed.





(** The bigram [("a", "z")] has a symbol outside the vocabulary and is
    counted nowhere; [("a", "a")] occurs twice. *)
Example count_bigrams_toy :
  count_bigrams toy_bigrams toy_c2i
  = ok [[of_nat 0; of_nat 1; of_nat 0];
        [of_nat 0; of_nat 2; of_nat 1];
        [of_nat 0; of_nat 0; of_nat 0]].
Proof. by_computation. Qed.

(** An index beyond the size of the vocabulary makes the assignment raise. *)
Example count_bigrams_index_out_of_range :
  count_bigrams [("a", "a")] {[ "a" := 1%nat ]} = raise IndexError.
Proof. vm_compute. reflexivity. Qed.

(** ** The vocabulary *)

Section vocabulary_facts.
Implicit Types (l : list string) (c x : string) (i n : nat).

(** [char_to_index] on a list of symbols. *)
Local Abbreviation number l :=
  (fold_left (λ (d : gmap string nat) (iv : nat * string), <[iv.2 := iv.1]> d)
             (imap (λ i val, (i, val)) l) ∅).

Local Abbreviation number_items l :=
  (fold_left (λ (d : list (string * nat)) (iv : nat * string), items_set iv.2 iv.1 d)
             (imap (λ i val, (i, val)) l) []).

Lemma number_snoc l x : number (l ++ [x]) = <[x := length l]> (number l).
Proof.
  rewrite imap_app, fold_left_app. cbn [imap fold_left fst snd].
  rewrite Nat.add_0_r. reflexivity.
Qed.

Lemma number_items_snoc l x :
  number_items (l ++ [x]) = items_set x (length l) (number_items l).
Proof.
  rewrite imap_app, fold_left_app. cbn [imap fold_left fst snd].
  rewrite Nat.add_0_r. reflexivity.
Qed.

(** A symbol is numbered by its last position. *)
Lemma number_lookup l c i :
  number l !! c = Some i ↔ l !! i = Some c ∧ ∀ j, (i < j)%nat → l !! j ≠ Some c.
Proof.
  revert i. induction l as [|x l IH] using rev_ind; intros i.
  - cbn. rewrite lookup_empty. split; [discriminate|]. intros [H _]. discriminate H.
  - rewrite number_snoc. destruct (decide (x = c)) as [->|Hne].
    + rewrite lookup_insert_eq. split.
      * intros [= <-]. split; [apply list_lookup_middle; reflexivity|].
        intros j Hj. rewrite lookup_ge_None_2; [discriminate|].
        rewrite length_app. cbn. lia.
      * intros [Hi Hlast]. f_equal.
        destruct (decide (i = length l)) as [->|Hlen]; [reflexivity|]. exfalso.
        apply lookup_lt_Some in Hi as Hlt. rewrite length_app in Hlt. cbn in Hlt.
        apply (Hlast (length l)); [lia|]. apply list_lookup_middle. reflexivity.
    + rewrite lookup_insert_ne by exact Hne. rewrite IH. split.
      * intros [Hi Hlast]. split; [apply lookup_app_l_Some; exact Hi|].
        intros j Hj Hc. apply lookup_lt_Some in Hc as Hlt.
        rewrite length_app in Hlt. cbn in Hlt.
        destruct (decide (j = length l)) as [->|Hlen].
        -- rewrite list_lookup_middle in Hc by reflexivity. congruence.
        -- rewrite lookup_app_l in Hc by lia. exact (Hlast j Hj Hc).
      * intros [Hi Hlast].
        assert (Hlt : (i < length l)%nat).
        { apply lookup_lt_Some in Hi as Hlt. rewrite length_app in Hlt. cbn in Hlt.
          destruct (decide (i = length l)) as [->|]; [|lia].
          rewrite list_lookup_middle in Hi by reflexivity. congruence. }
        rewrite lookup_app_l in Hi by exact Hlt. split; [exact Hi|].
        intros j Hj Hc. apply (Hlast j Hj). apply lookup_app_l_Some. exact Hc.
Qed.

Lemma number_is_Some l c : is_Some (number l !! c) ↔ c ∈ l.
Proof.
  induction l as [|x l IH] using rev_ind.
  - cbn. rewrite lookup_empty. split; [intros [? H]; discriminate H|intros H; inversion H].
  - rewrite number_snoc, elem_of_app, list_elem_of_singleton.
    destruct (decide (x = c)) as [->|Hne].
    + rewrite lookup_insert_eq. split; eauto.
    + rewrite lookup_insert_ne by exact Hne. rewrite IH. split; [auto|].
      intros [H|H]; [exact H|congruence].
Qed.

Lemma number_size_le l : (size (number l) ≤ length l)%nat.
Proof.
  induction l as [|x l IH] using rev_ind; [cbn; rewrite map_size_empty; lia|].
  rewrite number_snoc, length_app. cbn [length].
  destruct (number l !! x) as [i|] eqn:Hx.
  - rewrite map_size_insert_Some by eauto. lia.
  - rewrite map_size_insert_None by exact Hx. lia.
Qed.

Lemma number_size_NoDup l : NoDup l → size (number l) = length l.
Proof.
  induction l as [|x l IH] using rev_ind; intros Hnd; [apply map_size_empty|].
  apply NoDup_app in Hnd as (Hl & Hx & _).
  rewrite number_snoc, length_app. cbn [length].
  rewrite map_size_insert_None, IH by (try exact Hl; apply eq_None_not_Some;
    rewrite number_is_Some; intros Hin; apply (Hx x Hin); left).
  lia.
Qed.

Lemma number_size_dup l : ¬ NoDup l → (size (number l) < length l)%nat.
Proof.
  induction l as [|x l IH] using rev_ind; intros Hnd; [exfalso; apply Hnd; constructor|].
  rewrite number_snoc, length_app. cbn [length].
  pose proof (number_size_le l) as Hle.
  destruct (decide (x ∈ l)) as [Hin|Hnin].
  - apply number_is_Some in Hin. rewrite map_size_insert_Some by exact Hin. lia.
  - rewrite map_size_insert_None
      by (apply eq_None_not_Some; rewrite number_is_Some; exact Hnin).
    assert (Hl : ¬ NoDup l).
    { intros Hl. apply Hnd. apply NoDup_app. split; [exact Hl|]. split.
      - intros y Hy Hyx. apply list_elem_of_singleton in Hyx as ->. contradiction.
      - apply NoDup_singleton. }
    specialize (IH Hl). lia.
Qed.

(** The items and the map hold the same associations. *)
Lemma items_get_set k k' v (d : list (string * nat)) :
  items_get k (items_set k' v d) = if decide (k = k') then Some v else items_get k d.
Proof.
  induction d as [|[k1 v1] d IH]; cbn [items_set items_get].
  - destruct (decide (k = k')); reflexivity.
  - destruct (decide (k' = k1)) as [->|Hne]; cbn [items_get].
    + destruct (decide (k = k1)); reflexivity.
    + destruct (decide (k = k1)) as [->|Hne1].
      * rewrite decide_False by congruence. reflexivity.
      * exact IH.
Qed.

Lemma number_items_get l c : items_get c (number_items l) = number l !! c.
Proof.
  induction l as [|x l IH] using rev_ind; [cbn; rewrite lookup_empty; reflexivity|].
  rewrite number_items_snoc, number_snoc, items_get_set, IH.
  destruct (decide (c = x)) as [->|Hne].
  - rewrite lookup_insert_eq. reflexivity.
  - rewrite lookup_insert_ne by congruence. reflexivity.
Qed.

Lemma items_get_key c i (d : list (string * nat)) : items_get c d = Some i → c ∈ d.*1.
Proof.
  induction d as [|[k v] d IH]; cbn [items_get]; [discriminate|].
  rewrite fmap_cons. cbn [fst]. destruct (decide (c = k)) as [->|Hne].
  - intros _. left.
  - intros H. right. apply IH, H.
Qed.

(** The reverse of a dictionary without two keys of the same index. *)
Lemma index_to_char_fold (d : list (string * nat)) (ks : list string)
    (acc : gmap nat string) i c :
  (∀ k k' v, items_get k d = Some v → items_get k' d = Some v → k = k') →
  fold_left (λ idx_to_char k,
               match items_get k d with
               | Some i => <[i := k]> idx_to_char
               | None => idx_to_char
               end) ks acc !! i = Some c
  ↔ (c ∈ ks ∧ items_get c d = Some i)
    ∨ ((∀ k, k ∈ ks → items_get k d ≠ Some i) ∧ acc !! i = Some c).
Proof.
  intros Hinj. revert acc. induction ks as [|k ks IH]; intros acc; cbn [fold_left].
  - split.
    + intros H. right. split; [intros k Hk; inversion Hk|exact H].
    + intros [[Hin _]|[_ H]]; [inversion Hin|exact H].
  - rewrite IH. split.
    + intros [[Hin Hc]|[Hnone Hacc]]; [left; split; [right; exact Hin|exact Hc]|].
      destruct (items_get k d) as [v|] eqn:Hk.
      * destruct (decide (v = i)) as [->|Hne].
        -- rewrite lookup_insert_eq in Hacc. injection Hacc as <-.
           left. split; [left|exact Hk].
        -- rewrite lookup_insert_ne in Hacc by exact Hne. right. split; [|exact Hacc].
           intros k' Hk'. apply elem_of_cons in Hk' as [->|Hk']; [congruence|].
           apply Hnone, Hk'.
      * right. split; [|exact Hacc].
        intros k' Hk'. apply elem_of_cons in Hk' as [->|Hk']; [congruence|].
        apply Hnone, Hk'.
    + intros [[Hin Hc]|[Hnone Hacc]].
      * apply elem_of_cons in Hin as [<-|Hin]; [|left; split; assumption].
        destruct (decide (c ∈ ks)) as [Hin|Hnin]; [left; split; assumption|].
        right. rewrite Hc, lookup_insert_eq. split; [|reflexivity].
        intros k' Hk' Hk'i. rewrite (Hinj _ _ _ Hk'i Hc) in Hk'. contradiction.
      * right. split; [intros k' Hk'; apply Hnone; right; exact Hk'|].
        destruct (items_get k d) as [v|] eqn:Hk; [|exact Hacc].
        rewrite lookup_insert_ne; [exact Hacc|].
        intros ->. apply (Hnone k); [left|exact Hk].
Qed.

Lemma index_to_char_lookup (d : list (string * nat)) i c :
  (∀ k k' v, items_get k d = Some v → items_get k' d = Some v → k = k') →
  index_to_char d !! i = Some c ↔ items_get c d = Some i.
Proof.
  intros Hinj. unfold index_to_char. rewrite (index_to_char_fold d _ ∅ i c Hinj). split.
  - intros [[_ H]|[_ H]]; [exact H|]. rewrite lookup_empty in H. discriminate H.
  - intros H. left. split; [eapply items_get_key; exact H|exact H].
Qed.
End vocabulary_facts.

Lemma length_chars (word : string) : length (chars word) = String.length word.
Proof. induction word as [|c w IH]; [reflexivity|]. cbn. rewrite IH. reflexivity. Qed.

Lemma length_symbols alphabet start_token end_token :
  length (symbols alphabet start_token end_token) = (String.length alphabet + 2)%nat.
Proof. unfold symbols. cbn [length]. rewrite length_app, length_chars. cbn. lia. Qed.

Lemma char_to_index_items_get alphabet start_token end_token c :
  items_get c (char_to_index_items alphabet start_token end_token)
  = char_to_index alphabet start_token end_token !! c.
Proof. apply number_items_get. Qed.

Lemma char_to_index_injective alphabet start_token end_token c c' i :
  char_to_index alphabet start_token end_token !! c = Some i →
  char_to_index alphabet start_token end_token !! c' = Some i →
  c = c'.
Proof.
  unfold char_to_index. rewrite !number_lookup. intros [H _] [H' _]. congruence.
Qed.

Lemma char_to_index_lookup (alphabet start_token end_token c : string) (i : nat) :
  char_to_index alphabet start_token end_token !! c = Some i
  ↔ symbols alphabet start_token end_token !! i = Some c
    ∧ ∀ j, (i < j)%nat → symbols alphabet start_token end_token !! j ≠ Some c.
Proof. apply number_lookup. Qed.

(** X1: [char_to_index] gives a symbol the index of its last occurrence in
    [[start_token, *alphabet, end_token]], and has no other key. *)
Theorem char_to_index_last_occurrence
    (alphabet start_token end_token c : string) (i : nat) :
  char_to_index alphabet start_token end_token !! c = Some i
  ↔ symbols alphabet start_token end_token !! i = Some c
    ∧ ∀ j, (i < j)%nat → symbols alphabet start_token end_token !! j ≠ Some c.
Proof.
  unfold char_to_index. fold (symbols alphabet start_token end_token).
  apply number_lookup.
Qed.

Lemma char_to_index_NoDup (alphabet start_token end_token : string) :
  NoDup (symbols alphabet start_token end_token) →
  size (char_to_index alphabet start_token end_token) = (String.length alphabet + 2)%nat
  ∧ (∀ c i, char_to_index alphabet start_token end_token !! c = Some i
            ↔ symbols alphabet start_token end_token !! i = Some c)
  ∧ map_Forall (λ _ i, (i < size (char_to_index alphabet start_token end_token))%nat)
               (char_to_index alphabet start_token end_token).
Proof.
  intros Hnd.
  assert (Hsize : size (char_to_index alphabet start_token end_token)
                  = (String.length alphabet + 2)%nat).
  { unfold char_to_index. fold (symbols alphabet start_token end_token).
    rewrite number_size_NoDup by exact Hnd. apply length_symbols. }
  split; [exact Hsize|]. split.
  - intros c i. rewrite char_to_index_lookup. split; [intros [H _]; exact H|].
    intros Hi. split; [exact Hi|]. intros j Hj Hc.
    pose proof (NoDup_lookup _ _ _ _ Hnd Hi Hc). lia.
  - intros c i Hi. rewrite Hsize, <- (length_symbols alphabet start_token end_token).
    apply char_to_index_lookup in Hi as [Hi _].
    eapply lookup_lt_Some. exact Hi.
Qed.

(** X2: when the symbols [[start_token, *alphabet, end_token]] are pairwise
    distinct, [char_to_index] has [len(alphabet) + 2] keys, maps each symbol
    to its position, and every index is below the number of keys. *)
Theorem char_to_index_distinct_symbols (alphabet start_token end_token : string) :
  NoDup (symbols alphabet start_token end_token) →
  size (char_to_index alphabet start_token end_token) = (String.length alphabet + 2)%nat
  ∧ (∀ c i, char_to_index alphabet start_token end_token !! c = Some i
            ↔ symbols alphabet start_token end_token !! i = Some c)
  ∧ map_Forall (λ _ i, (i < size (char_to_index alphabet start_token end_token))%nat)
               (char_to_index alphabet start_token end_token).
Proof. apply char_to_index_NoDup. Qed.

Lemma char_to_index_distinct_symbols_witness :
  NoDup (symbols "ab" "-" ".")
  ∧ size (char_to_index "ab" "-" ".") = (String.length "ab" + 2)%nat
  ∧ (∀ c i, char_to_index "ab" "-" "." !! c = Some i
            ↔ symbols "ab" "-" "." !! i = Some c)
  ∧ map_Forall (λ _ i, (i < size (char_to_index "ab" "-" "."))%nat)
               (char_to_index "ab" "-" ".").
Proof.
  assert (Hnd : NoDup (symbols "ab" "-" ".")) by by_computation.
  split; [exact Hnd|].
  apply (char_to_index_distinct_symbols "ab" "-" "." Hnd).
Defined.

Lemma char_to_index_end (alphabet start_token end_token : string) :
  char_to_index alphabet start_token end_token !! end_token
  = Some (S (String.length alphabet))
  ∧ (¬ NoDup (symbols alphabet start_token end_token) →
     (size (char_to_index alphabet start_token end_token) ≤ S (String.length alphabet))%nat).
Proof.
  split.
  - unfold char_to_index.
    change (start_token :: chars alphabet ++ [end_token])
      with ((start_token :: chars alphabet) ++ [end_token]).
    rewrite number_snoc, lookup_insert_eq. cbn [length]. rewrite length_chars. reflexivity.
  - intros Hdup. unfold char_to_index. fold (symbols alphabet start_token end_token).
    pose proof (number_size_dup _ Hdup) as Hlt.
    rewrite length_symbols in Hlt. lia.
Qed.

(** X3: whatever the alphabet, the end token gets the index
    [len(alphabet) + 1]; when a symbol is repeated in
    [[start_token, *alphabet, end_token]] the dictionary has at most
    [len(alphabet) + 1] keys, so that this index is not below its size. *)
Theorem char_to_index_end_token (alphabet start_token end_token : string) :
  char_to_index alphabet start_token end_token !! end_token
  = Some (S (String.length alphabet))
  ∧ (¬ NoDup (symbols alphabet start_token end_token) →
     (size (char_to_index alphabet start_token end_token) ≤ S (String.length alphabet))%nat).
Proof. apply char_to_index_end. Qed.

Lemma index_to_char_char_to_index (alphabet start_token end_token c : string) (i : nat) :
  index_to_char (char_to_index_items alphabet start_token end_token) !! i = Some c
  ↔ char_to_index alphabet start_token end_token !! c = Some i.
Proof.
  rewrite index_to_char_lookup, char_to_index_items_get; [reflexivity|].
  intros k k' v. rewrite !char_to_index_items_get. apply char_to_index_injective.
Qed.

(** X4: [index_to_char(char_to_index(alphabet, start_token, end_token))]
    is the reverse dictionary: it maps [i] to [c] exactly when
    [char_to_index] maps [c] to [i], repeated symbols or not. *)
Theorem index_to_char_reverses_char_to_index
    (alphabet start_token end_token c : string) (i : nat) :
  index_to_char (char_to_index_items alphabet start_token end_token) !! i = Some c
  ↔ char_to_index alphabet start_token end_token !! c = Some i.
Proof. apply index_to_char_char_to_index. Qed.

(** ** More on the transition counter *)

Lemma counter_keys_mono {K} `{EqDecision K} (k : K) (xs : list K) (c : list (K * nat)) :
  k ∈ c.*1 ∨ k ∈ xs → k ∈ (fold_left (λ c k, counter_incr k c) xs c).*1.
Proof.
  revert c. induction xs as [|x xs IH]; intros c; cbn [fold_left].
  - intros [H|H]; [exact H|inversion H].
  - intros H. apply IH. rewrite counter_keys_incr.
    destruct H as [H|H].
    + left. destruct (decide (x ∈ c.*1)); [exact H|]. apply elem_of_app. left. exact H.
    + apply elem_of_cons in H as [->|H]; [|right; exact H].
      left. destruct (decide (x ∈ c.*1)) as [Hin|_]; [exact Hin|].
      apply elem_of_app. right. left.
Qed.

Lemma counter_pop_keys {K} `{EqDecision K} (k k0 : K) (c : list (K * nat)) :
  k ∈ (counter_pop k0 c).*1 ↔ k ≠ k0 ∧ k ∈ c.*1.
Proof.
  unfold counter_pop. rewrite !list_elem_of_fmap. split.
  - intros (kv & -> & Hin). apply list_elem_of_filter in Hin as [Hne Hin].
    split; [exact Hne|]. exists kv. auto.
  - intros (Hne & kv & -> & Hin). exists kv. split; [reflexivity|].
    apply list_elem_of_filter. auto.
Qed.

(** The keys left in [occurences] are the index pairs of the bigrams of the
    vocabulary. *)
Lemma occurences_keys c2i (bigrams : list (string * string)) i j :
  Some (i, j) ∈ (counter_pop None (Counter (map (get_bigram_index_func c2i) bigrams))).*1
  ↔ ∃ x, x ∈ bigrams ∧ c2i !! x.1 = Some i ∧ c2i !! x.2 = Some j.
Proof.
  rewrite counter_pop_keys. split.
  - intros [_ Hin]. apply counter_keys_Counter in Hin.
    apply list_elem_of_In, in_map_iff in Hin as (x & Hx & Hin).
    exists x. split; [apply list_elem_of_In; exact Hin|].
    apply get_bigram_index_Some, Hx.
  - intros (x & Hin & Hx). split; [discriminate|].
    apply counter_keys_mono. right. apply list_elem_of_In, in_map_iff.
    exists x. split; [apply get_bigram_index_Some; exact Hx|apply list_elem_of_In; exact Hin].
Qed.

Lemma tensor_set_out_of_range n m (t : list (list scalar)) i j v :
  shape n m t → (n ≤ i ∨ m ≤ j)%nat → tensor_set t i j v = raise IndexError.
Proof.
  intros [Hn Hm] Hout. unfold tensor_set.
  destruct (t !! i) as [rw|] eqn:Hrw; [|reflexivity].
  assert (Hlen : length rw = m).
  { eapply Forall_lookup_1 in Hm; [exact Hm|exact Hrw]. }
  apply lookup_lt_Some in Hrw.
  rewrite decide_False by lia. reflexivity.
Qed.

Lemma tensor_set_ok_or_IndexError n m (t : list (list scalar)) i j v :
  shape n m t →
  (∃ t', tensor_set t i j v = ok t' ∧ shape n m t') ∨ tensor_set t i j v = raise IndexError.
Proof.
  intros Ht. destruct (decide (i < n ∧ j < m)%nat) as [[Hi Hj]|Hout].
  - left. destruct (tensor_set_spec n m t i j v Ht Hi Hj) as (t' & H & Ht' & _). eauto.
  - right. eapply tensor_set_out_of_range; [exact Ht|lia].
Qed.

(** One key out of the bounds makes the loop raise. *)
Lemma fill_counts_out_of_range c n (l : list (option (nat * nat) * nat))
    (t : list (list scalar)) i j :
  shape n n t →
  Some (i, j) ∈ l.*1 →
  (n ≤ i ∨ n ≤ j)%nat →
  for_each (count_body c) l t = raise IndexError.
Proof.
  intros Ht Hin Hout. revert t Ht.
  induction l as [|[k v] l IH]; intros t Ht; [inversion Hin|].
  cbn [for_each]. unfold count_body at 1. cbn [fst].
  rewrite fmap_cons in Hin. cbn [fst] in Hin.
  destruct k as [[i0 j0]|].
  - cbn [fst snd].
    destruct (decide ((i0, j0) = (i, j))) as [[= -> ->]|Hne].
    + rewrite (tensor_set_out_of_range n n t i j _ Ht Hout). reflexivity.
    + destruct (tensor_set_ok_or_IndexError n n t i0 j0
                  (of_nat (counter_get (Some (i0, j0)) c)) Ht) as [(t' & -> & Ht')| ->];
        [|reflexivity].
      cbn [rbind ok]. apply IH; [|exact Ht'].
      apply elem_of_cons in Hin as [Hin|Hin]; [congruence|exact Hin].
  - cbn [rbind ok]. apply IH; [|exact Ht].
    apply elem_of_cons in Hin as [Hin|Hin]; [discriminate Hin|exact Hin].
Qed.

Lemma in_bounds_lookup c2i x i j :
  in_bounds c2i x → c2i !! x.1 = Some i → c2i !! x.2 = Some j →
  (i < size c2i)%nat ∧ (j < size c2i)%nat.
Proof.
  unfold in_bounds. intros H Hi Hj.
  rewrite (proj2 (get_bigram_index_Some c2i i j x) (conj Hi Hj)) in H. exact H.
Qed.


(** What [count_bigrams] returns when the indices of the bigrams are below
    the size of the vocabulary. *)
Lemma count_bigrams_cells (bigrams : list (string * string)) (c2i : gmap string nat) :
  Forall (in_bounds c2i) bigrams →
  ∃ t,
    count_bigrams bigrams c2i = ok t
    ∧ shape (size c2i) (size c2i) t
    ∧ ∀ i j, (i < size c2i)%nat → (j < size c2i)%nat →
             tensor_get t i j
             = ok (of_nat (length (filter
                    (λ x, c2i !! x.1 = Some i ∧ c2i !! x.2 = Some j) bigrams))).
Proof.
  intros Hrange.
  set (n := size c2i).
  set (occ := counter_pop None (Counter (map (get_bigram_index_func c2i) bigrams))).
  assert (Hocc : Forall (λ kv, ∃ i j, kv.1 = Some (i, j) ∧ (i < n)%nat ∧ (j < n)%nat) occ).
  { apply Forall_forall. intros [k v] Hin.
    assert (Hk : k ∈ occ.*1) by (apply list_elem_of_fmap; exists (k, v); auto).
    destruct k as [[i j]|].
    - apply occurences_keys in Hk as (x & Hx & Hi & Hj).
      exists i, j. split; [reflexivity|].
      apply (in_bounds_lookup c2i x); [|exact Hi|exact Hj].
      eapply Forall_forall in Hrange; [exact Hrange|exact Hx].
    - apply counter_pop_keys in Hk as [Hne _]. contradiction. }
  destruct (fill_counts occ n occ (zeros n n) (zeros_shape n n) Hocc)
    as (t & Hrun & Ht & Hget).
  exists t. split; [exact Hrun|]. split; [exact Ht|].
  intros i j Hi Hj. rewrite Hget.
  assert (E : counter_get (Some (i, j)) occ
              = length (filter (λ x, c2i !! x.1 = Some i ∧ c2i !! x.2 = Some j) bigrams)).
  { unfold occ. rewrite counter_pop_Counter, counter_get_Counter.
    rewrite <- (list_filter_iff _ _ _ (get_bigram_index_Some c2i i j)).
    rewrite <- occurrences_map. unfold occurrences. f_equal.
    rewrite list_filter_filter. apply list_filter_iff. intros o. split.
    - intros [H _]. exact H.
    - intros ->. split; [reflexivity|discriminate]. }
  destruct (decide (Some (i, j) ∈ occ.*1)) as [_|Hnin].
  - rewrite E. reflexivity.
  - rewrite tensor_get_zeros by assumption.
    rewrite <- E, (counter_get_absent _ _ Hnin). reflexivity.
Qed.

Lemma count_bigrams_out_of_bounds (bigrams : list (string * string)) (c2i : gmap string nat) :
  ¬ Forall (in_bounds c2i) bigrams → count_bigrams bigrams c2i = raise IndexError.
Proof.
  intros Hout. apply not_Forall_Exists in Hout; [|apply _].
  apply Exists_exists in Hout as (x & Hin & Hx).
  unfold in_bounds, compose in Hx. cbv beta in Hx.
  destruct (get_bigram_index_func c2i x) as [[i j]|] eqn:Hidx; [|exfalso; apply Hx; exact I].
  apply get_bigram_index_Some in Hidx as [Hi Hj].
  unfold count_bigrams.
  apply (fill_counts_out_of_range _ (size c2i) _ _ i j (zeros_shape _ _)).
  - apply occurences_keys. exists x. auto.
  - lia.
Qed.

(** Two tensors of one shape with the same cells are the same. *)
Lemma tensor_ext n m (t t' : list (list scalar)) :
  shape n m t → shape n m t' →
  (∀ i j, (i < n)%nat → (j < m)%nat → tensor_get t i j = tensor_get t' i j) →
  t = t'.
Proof.
  intros [Hn Hm] [Hn' Hm'] Hcells. apply list_eq_same_length with n; [exact Hn'|exact Hn|].
  intros i rw rw' Hi Hrw Hrw'.
  assert (Hl : length rw = m) by (eapply Forall_lookup_1 in Hm; [exact Hm|exact Hrw]).
  assert (Hl' : length rw' = m) by (eapply Forall_lookup_1 in Hm'; [exact Hm'|exact Hrw']).
  apply list_eq_same_length with m; [exact Hl'|exact Hl|].
  intros j x x' Hj Hx Hx'. specialize (Hcells i j Hi Hj).
  unfold tensor_get in Hcells. rewrite Hrw, Hrw' in Hcells.
  cbn [of_option rbind ok] in Hcells. rewrite Hx, Hx' in Hcells.
  injection Hcells as ->. reflexivity.
Qed.


(** X5: [count_bigrams] raises [IndexError], and nothing else, exactly when
    some bigram of the list has both symbols in [char_to_idx] and one of
    their indices is not below [len(char_to_idx)]; otherwise it returns a
    square matrix of that size. *)
Theorem count_bigrams_raises_iff
    (bigrams : list (string * string)) (char_to_idx : gmap string nat) :
  (count_bigrams bigrams char_to_idx = raise IndexError
   ↔ ∃ x i j, x ∈ bigrams
              ∧ char_to_idx !! x.1 = Some i ∧ char_to_idx !! x.2 = Some j
              ∧ (size char_to_idx ≤ i ∨ size char_to_idx ≤ j)%nat)
  ∧ (count_bigrams bigrams char_to_idx = raise IndexError
     ∨ ∃ t, count_bigrams bigrams char_to_idx = ok t
            ∧ shape (size char_to_idx) (size char_to_idx) t).
Proof.
  destruct (decide (Forall (in_bounds char_to_idx) bigrams)) as [Hin|Hout].
  - destruct (count_bigrams_cells bigrams char_to_idx Hin) as (t & Hrun & Ht & _).
    split; [|right; eauto]. rewrite Hrun. split; [discriminate|].
    intros (x & i & j & Hx & Hi & Hj & Hge). exfalso.
    eapply Forall_forall in Hin; [|exact Hx].
    destruct (in_bounds_lookup _ _ _ _ Hin Hi Hj). lia.
  - pose proof (count_bigrams_out_of_bounds bigrams char_to_idx Hout) as Hrun.
    split; [|left; exact Hrun]. split; [|intros _; exact Hrun]. intros _.
    apply not_Forall_Exists in Hout; [|apply _].
    apply Exists_exists in Hout as (x & Hx & Hb).
    unfold in_bounds, compose in Hb. cbv beta in Hb.
    destruct (get_bigram_index_func char_to_idx x) as [[i j]|] eqn:Hidx;
      [|exfalso; apply Hb; exact I].
    apply get_bigram_index_Some in Hidx as [Hi Hj].
    exists x, i, j. split; [exact Hx|]. split; [exact Hi|]. split; [exact Hj|]. lia.
Qed.

(** X6: when a symbol is repeated in [[start_token, *alphabet, end_token]],
    [count_bigrams] on the vocabulary of [char_to_index] raises [IndexError]
    for every list that has a bigram ending in the end token whose first
    symbol is in the vocabulary. *)
Theorem count_bigrams_repeated_symbol
    (alphabet start_token end_token c : string) (bigrams : list (string * string)) :
  ¬ NoDup (symbols alphabet start_token end_token) →
  (c, end_token) ∈ bigrams →
  is_Some (char_to_index alphabet start_token end_token !! c) →
  count_bigrams bigrams (char_to_index alphabet start_token end_token) = raise IndexError.
Proof.
  intros Hdup Hin [i Hi].
  destruct (char_to_index_end alphabet start_token end_token) as [Hend Hsize].
  apply count_bigrams_out_of_bounds. intros Hb.
  eapply Forall_forall in Hb; [|exact Hin].
  destruct (in_bounds_lookup _ _ _ _ Hb Hi Hend) as [_ Hlt].
  specialize (Hsize Hdup). lia.
Qed.

Lemma count_bigrams_repeated_symbol_witness :
  ¬ NoDup (symbols "aa" "-" ".")
  ∧ ("a", ".") ∈ [("-", "a"); ("a", ".")]
  ∧ is_Some (char_to_index "aa" "-" "." !! "a")
  ∧ count_bigrams [("-", "a"); ("a", ".")] (char_to_index "aa" "-" ".") = raise IndexError.
Proof.
  assert (H1 : ¬ NoDup (symbols "aa" "-" ".")) by by_computation.
  assert (H2 : ("a", ".") ∈ [("-", "a"); ("a", ".")]) by by_computation.
  assert (H3 : is_Some (char_to_index "aa" "-" "." !! "a")) by by_computation.
  split; [exact H1|]. split; [exact H2|]. split; [exact H3|].
  apply (count_bigrams_repeated_symbol "aa" "-" "." "a" [("-", "a"); ("a", ".")] H1 H2 H3).
Defined.

Lemma count_bigrams_ok_in_bounds (bigrams : list (string * string)) c2i t :
  count_bigrams bigrams c2i = ok t → Forall (in_bounds c2i) bigrams.
Proof.
  intros Hrun. destruct (decide (Forall (in_bounds c2i) bigrams)) as [H|H]; [exact H|].
  rewrite (count_bigrams_out_of_bounds _ _ H) in Hrun. discriminate Hrun.
Qed.

(** X7: [count_bigrams] does not depend on the order of the bigrams: two
    lists that are permutations of each other give the same matrix, or both
    raise. *)
Theorem count_bigrams_permutation
    (bigrams bigrams' : list (string * string)) (char_to_idx : gmap string nat) :
  bigrams ≡ₚ bigrams' →
  count_bigrams bigrams char_to_idx = count_bigrams bigrams' char_to_idx.
Proof.
  intros Hperm.
  destruct (decide (Forall (in_bounds char_to_idx) bigrams)) as [Hin|Hout].
  - assert (Hin' : Forall (in_bounds char_to_idx) bigrams') by (rewrite <- Hperm; exact Hin).
    destruct (count_bigrams_cells _ _ Hin) as (t & -> & Ht & Hcells).
    destruct (count_bigrams_cells _ _ Hin') as (t' & -> & Ht' & Hcells').
    f_equal. apply (tensor_ext _ _ _ _ Ht Ht'). intros i j Hi Hj.
    rewrite Hcells, Hcells' by assumption. do 2 f_equal.
    apply Permutation_length. rewrite Hperm. reflexivity.
  - assert (Hout' : ¬ Forall (in_bounds char_to_idx) bigrams')
      by (rewrite <- Hperm; exact Hout).
    rewrite !count_bigrams_out_of_bounds by assumption. reflexivity.
Qed.

Lemma count_bigrams_permutation_witness :
  toy_bigrams ≡ₚ reverse toy_bigrams
  ∧ count_bigrams toy_bigrams toy_c2i = count_bigrams (reverse toy_bigrams) toy_c2i.
Proof.
  assert (H : toy_bigrams ≡ₚ reverse toy_bigrams) by (symmetry; apply reverse_Permutation).
  split; [exact H|].
  apply (count_bigrams_permutation toy_bigrams (reverse toy_bigrams) toy_c2i H).
Defined.



(** ** Loading the corpus *)

Lemma adjacent_pairs_cons {X} (x y : X) (l : list X) :
  adjacent_pairs (x :: y :: l) = (x, y) :: adjacent_pairs (y :: l).
Proof. reflexivity. Qed.

Lemma bigram_func_from (pre l : list string) :
  map_result (λ i, let? a := of_option IndexError ((pre ++ l) !! i) in
                   let? b := of_option IndexError ((pre ++ l) !! (i + 1)%nat) in
                   ok (a, b))
             (seq (length pre) (length l - 1))
  = ok (adjacent_pairs l).
Proof.
  revert pre. induction l as [|x l IH]; intros pre; [reflexivity|].
  destruct l as [|y l]; [reflexivity|].
  replace (length (x :: y :: l) - 1)%nat with (S (length l)) by (cbn; lia).
  cbn [seq map_result]. rewrite list_lookup_middle by reflexivity.
  assert (E : (pre ++ x :: y :: l) !! (length pre + 1)%nat = Some y).
  { replace (pre ++ x :: y :: l) with ((pre ++ [x]) ++ y :: l)
      by (rewrite <- app_assoc; reflexivity).
    apply list_lookup_middle. rewrite length_app. reflexivity. }
  rewrite E. cbn [of_option rbind ok].
  specialize (IH (pre ++ [x])).
  rewrite <- app_assoc, length_app in IH. cbn [app length] in IH.
  replace (length pre + 1)%nat with (S (length pre)) in IH by lia.
  replace (S (length l) - 1)%nat with (length l) in IH by lia.
  rewrite IH. reflexivity.
Qed.

Lemma bigram_func_adjacent_pairs (x : list string) : bigram_func x = ok (adjacent_pairs x).
Proof. apply (bigram_func_from [] x). Qed.

Lemma load_and_preprocess_data_unfold (lines : list string) start_token end_token :
  load_and_preprocess_data lines start_token end_token
  = ok (concat (map (λ line, adjacent_pairs (tokenize_func start_token end_token
                                                            (clean_names_func line)))
                    lines)).
Proof.
  unfold load_and_preprocess_data.
  assert (E : map_result (λ line, bigram_func (tokenize_func start_token end_token
                                                             (clean_names_func line))) lines
              = ok (map (λ line, adjacent_pairs (tokenize_func start_token end_token
                                                               (clean_names_func line)))
                        lines)).
  { induction lines as [|line lines IH]; [reflexivity|].
    cbn [map_result map]. rewrite bigram_func_adjacent_pairs, IH. reflexivity. }
  rewrite E. reflexivity.
Qed.

Lemma adjacent_pairs_bracketed {X} (x y : X) (l : list X) :
  (adjacent_pairs (x :: l ++ [y])).*1 = x :: l
  ∧ (adjacent_pairs (x :: l ++ [y])).*2 = l ++ [y].
Proof.
  revert x. induction l as [|z l IH]; intros x; [split; reflexivity|].
  cbn [app]. rewrite adjacent_pairs_cons, !fmap_cons. cbn [fst snd].
  destruct (IH z) as [-> ->]. split; reflexivity.
Qed.

(** *** Splitting a line *)

Lemma split_piece (w rest : string) :
  space_free w = true →
  split " " (w +:+ String " " rest) = w :: split " " rest.
Proof.
  induction w as [|c w IH]; intros Hw.
  - change ("" +:+ String " " rest) with (String " " rest). cbn [split].
    destruct (decide (" "%char = " "%char)) as [_|Hne]; [reflexivity|]. contradiction.
  - cbn [space_free] in Hw. destruct (decide (c = " "%char)) as [|Hne]; [discriminate Hw|].
    change (String c w +:+ String " " rest) with (String c (w +:+ String " " rest)).
    cbn [split]. destruct (decide (c = " "%char)) as [|_]; [contradiction|].
    rewrite (IH Hw). reflexivity.
Qed.

Lemma split_space_free (w : string) : space_free w = true → split " " w = [w].
Proof.
  induction w as [|c w IH]; intros Hw; [reflexivity|].
  cbn [space_free] in Hw. destruct (decide (c = " "%char)) as [|Hne]; [discriminate Hw|].
  cbn [split]. destruct (decide (c = " "%char)) as [|_]; [contradiction|].
  rewrite (IH Hw). reflexivity.
Qed.

Lemma split_join_words (w : string) (ws : list string) :
  Forall (λ w, space_free w = true) (w :: ws) →
  split " " (join_words (w :: ws)) = w :: ws.
Proof.
  revert w. induction ws as [|w' ws IH]; intros w Hall.
  - apply split_space_free. inversion Hall; assumption.
  - inversion Hall as [|? ? Hw Hrest]; subst.
    change (join_words (w :: w' :: ws)) with (w +:+ String " " (join_words (w' :: ws))).
    rewrite split_piece by exact Hw. rewrite (IH w' Hrest). reflexivity.
Qed.

Lemma drop_last_two_app {X} (l : list X) (a b : X) : drop_last_two (l ++ [a; b]) = l.
Proof.
  unfold drop_last_two. rewrite length_app. cbn [length].
  replace (length l + 2 - 2)%nat with (length l) by lia.
  apply take_app_length.
Qed.

Lemma drop_last_char_snoc (s : string) : drop_last_char (s +:+ " ") = s.
Proof.
  induction s as [|c s IH]; [reflexivity|].
  change (String c s +:+ " ") with (String c (s +:+ " ")).
  cbn [drop_last_char]. destruct (s +:+ " ") as [|c' s'] eqn:E.
  - destruct s; discriminate E.
  - rewrite IH. reflexivity.
Qed.

Lemma join_spaced_join_words (ws : list string) :
  drop_last_char (join_spaced ws) = join_words ws.
Proof.
  destruct ws as [|w ws]; [reflexivity|].
  assert (E : ∀ w ws, join_spaced (w :: ws) = join_words (w :: ws) +:+ " ").
  { clear. intros w ws. revert w. induction ws as [|w' ws IH]; intros w.
    - cbn. reflexivity.
    - change (join_spaced (w :: w' :: ws)) with (w +:+ " " +:+ join_spaced (w' :: ws)).
      change (join_words (w :: w' :: ws)) with (w +:+ " " +:+ join_words (w' :: ws)).
      rewrite IH, <- !append_assoc. reflexivity. }
  rewrite E. apply drop_last_char_snoc.
Qed.

(** X9: [load_and_preprocess_data] raises nothing; it returns, line after
    line, the bigrams of the cleaned name between the two tokens: the first
    symbols of the bigrams of a line are the start token and then the
    characters of the name, the second symbols are these characters and then
    the end token. *)
Theorem load_and_preprocess_data_per_line
    (lines : list string) (start_token end_token : string) :
  ∃ per_line,
    load_and_preprocess_data lines start_token end_token = ok (concat per_line)
    ∧ Forall2 (λ line (p : list (string * string)),
                 p.*1 = start_token :: chars (clean_names_func line)
                 ∧ p.*2 = chars (clean_names_func line) ++ [end_token])
              lines per_line.
Proof.
  eexists. split; [apply load_and_preprocess_data_unfold|].
  induction lines as [|line lines IH]; [constructor|].
  cbn [map]. constructor; [|exact IH].
  apply adjacent_pairs_bracketed.
Qed.

(** X10: on a line made of the words of a name and of two more fields,
    separated by single spaces, [clean_names_func] is the name in lower
    case, its words separated by single spaces. *)
Theorem clean_names_func_fields (name_words : list string) (field1 field2 : string) :
  Forall (λ w, space_free w = true) (name_words ++ [field1; field2]) →
  clean_names_func (join_words (name_words ++ [field1; field2]))
  = lower (join_words name_words).
Proof.
  intros Hall. unfold clean_names_func.
  assert (E : split " " (join_words (name_words ++ [field1; field2]))
              = name_words ++ [field1; field2]).
  { destruct name_words as [|w ws]; apply split_join_words; exact Hall. }
  rewrite E, drop_last_two_app, join_spaced_join_words. reflexivity.
Qed.

Lemma clean_names_func_fields_witness :
  Forall (λ w, space_free w = true) (["Maria"; "Jose"] ++ ["12"; "0.5"])
  ∧ clean_names_func (join_words (["Maria"; "Jose"] ++ ["12"; "0.5"]))
    = lower (join_words ["Maria"; "Jose"]).
Proof.
  assert (H : Forall (λ w, space_free w = true) (["Maria"; "Jose"] ++ ["12"; "0.5"]))
    by (repeat constructor).
  split; [exact H|].
  apply (clean_names_func_fields ["Maria"; "Jose"] "12" "0.5" H).
Defined.

(** X11: a line with less than three fields, a bare name for one, is read
    as the empty name: it gives the one bigram of the start token and the
    end token. *)
Theorem load_and_preprocess_data_short_line (line start_token end_token : string) :
  (length (split " " line) ≤ 2)%nat →
  load_and_preprocess_data [line] start_token end_token = ok [(start_token, end_token)].
Proof.
  intros Hlen. rewrite load_and_preprocess_data_unfold. cbn [map concat].
  unfold clean_names_func, drop_last_two.
  replace (length (split " " line) - 2)%nat with 0%nat by lia.
  reflexivity.
Qed.

Lemma load_and_preprocess_data_short_line_witness :
  (length (split " " "maria 12") ≤ 2)%nat
  ∧ load_and_preprocess_data ["maria 12"] "-" "." = ok [("-", ".")].
Proof.
  assert (H : (length (split " " "maria 12") ≤ 2)%nat) by (vm_compute; lia).
  split; [exact H|].
  apply (load_and_preprocess_data_short_line "maria 12" "-" "." H).
Defined.


(** Repeated spaces leave an empty field, which the cleaned name keeps as a
    trailing space. *)
Example clean_names_func_double_space : clean_names_func "Maria  12 34" = "maria ".
Proof. reflexivity. Qed.

Example load_and_preprocess_data_toy :
  load_and_preprocess_data ["Ab 1 2"; "b"] "-" "."
  = ok [("-", "a"); ("a", "b"); ("b", "."); ("-", ".")].
Proof. reflexivity. Qed.


(** ** Smoothing *)

Lemma qsum_ge (l : list Qc) (a : Qc) :
  Forall (λ a, 0 ≤ a) l → a ∈ l → a ≤ qsum l.
Proof.
  induction 1 as [|b l Hb Hl IH]; intros Hin; [inversion Hin|].
  cbn [qsum foldr]. fold (qsum l). apply elem_of_cons in Hin as [->|Hin].
  - rewrite <- (Qcplus_0_r b) at 1. apply Qcplus_le_compat; [apply Qcle_refl|].
    apply qsum_nonneg, Hl.
  - rewrite <- (Qcplus_0_l a). apply Qcplus_le_compat; [exact Hb|apply IH, Hin].
Qed.

Lemma normalize_row_positive (sq : Qc) (rw : list scalar) :
  0 < sq →
  Forall (λ c, finite_nonneg c = true) rw →
  Forall (λ x, positive_probability x = true) (normalize_row (Fin sq) rw)
  ∧ (rw ≠ [] → ssum (normalize_row (Fin sq) rw) = sone).
Proof.
  intros Hs Hrw. destruct (finite_row rw Hrw) as (qs & -> & Hqs). clear Hrw.
  destruct qs as [|q0 qs0]; [split; [constructor|intros H; contradiction]|].
  unfold normalize_row. rewrite map_sadd_Fin, ssum_Fin.
  set (qs' := map (λ a, a + sq) (q0 :: qs0)).
  assert (Hpos' : Forall (λ a, 0 < a) qs').
  { unfold qs'. apply Forall_map. eapply Forall_impl; [exact Hqs|].
    intros a Ha. cbn. apply Qcplus_nonneg_pos; assumption. }
  assert (Hnn' : Forall (λ a, 0 ≤ a) qs').
  { eapply Forall_impl; [exact Hpos'|]. intros a. apply Qclt_le_weak. }
  assert (Hsum : 0 < qsum qs').
  { apply Qclt_le_trans with (q0 + sq).
    - inversion Hqs; subst. apply Qcplus_nonneg_pos; assumption.
    - apply qsum_ge; [exact Hnn'|]. unfold qs'. cbn [map]. left. }
  assert (Hne : qsum qs' ≠ 0).
  { intros E. rewrite E in Hsum. exact (Qclt_not_eq _ _ Hsum eq_refl). }
  rewrite map_sdiv_Fin by exact Hne. split.
  - apply Forall_map, Forall_map. apply Forall_forall. intros a Ha.
    pose proof (proj1 (Forall_forall _ _) Hpos' a Ha) as Ha0. cbn beta in Ha0.
    pose proof (qsum_ge qs' a Hnn' Ha) as Hle.
    cbn. apply andb_true_intro. split; apply bool_decide_eq_true_2.
    + unfold Qcdiv. apply Qcmult_pos_pos; [exact Ha0|apply Qcinv_pos, Hsum].
    + rewrite <- (Qcdiv_diag (qsum qs') Hne). unfold Qcdiv.
      apply Qcmult_le_compat_r; [exact Hle|apply Qclt_le_weak, Qcinv_pos, Hsum].
  - intros _. rewrite ssum_Fin, qsum_div, Qcdiv_diag by exact Hne. reflexivity.
Qed.

Lemma positive_probability_finite_nonneg (x : scalar) :
  positive_probability x = true → finite_nonneg x = true.
Proof.
  destruct x as [a| | |]; cbn; try discriminate.
  intros H. apply andb_prop in H as [H _]. apply bool_decide_eq_true_1 in H.
  apply bool_decide_eq_true_2, Qclt_le_weak, H.
Qed.

Lemma of_nat_finite_nonneg (k : nat) : finite_nonneg (of_nat k) = true.
Proof.
  unfold of_nat, finite_nonneg. apply bool_decide_eq_true_2.
  unfold Qcle. cbn [this Q2Qc]. rewrite !Qred_correct. unfold Qle. cbn. lia.
Qed.

Lemma of_nat_positive (k : nat) : (1 ≤ k)%nat → 0 < Q2Qc (inject_Z (Z.of_nat k)).
Proof.
  intros Hk. unfold Qclt. cbn [this Q2Qc]. rewrite !Qred_correct. unfold Qlt. cbn. lia.
Qed.

(** X13: with an integer smoothing value [>= 1] on a matrix of integer
    counts, every entry of the matrix returned by
    [bigrams_count_to_probabilities] is finite, [> 0] and [<= 1]: no row is
    degenerate.  The bound on the smoothed row sums, [< 2^24], is the range
    in which the float tensors of the code hold the counts and their sums
    exactly. *)
Theorem smoothing_makes_rows_positive
    (h : gmap nat (list (list scalar))) (bigram_counts : nat)
    (counts : list (list nat)) (smooth_factor : nat) :
  h !! bigram_counts = Some (map (map of_nat) counts) →
  (1 ≤ smooth_factor)%nat →
  Forall (λ rw, (Z.of_nat (sum_list rw + length rw * smooth_factor) < 2 ^ 24)%Z) counts →
  ∃ r h' p,
    bigrams_count_to_probabilities bigram_counts (of_nat smooth_factor) h = ok (r, h')
    ∧ h' !! r = Some p
    ∧ length p = length counts
    ∧ ∀ i rw,
        counts !! i = Some rw →
        ∃ prow,
          p !! i = Some prow
          ∧ length prow = length rw
          ∧ Forall (λ x, positive_probability x = true) prow.
Proof.
  intros Hbc Hs _.
  destruct (bigrams_count_to_probabilities_run h bigram_counts _ (of_nat smooth_factor) Hbc)
    as (r & h' & Hrun & _ & Hr & _).
  exists r, h', (normalized (of_nat smooth_factor) (map (map of_nat) counts)).
  split; [exact Hrun|]. split; [exact Hr|]. split.
  { unfold normalized. rewrite !length_map. reflexivity. }
  intros i rw Hi. exists (normalize_row (of_nat smooth_factor) (map of_nat rw)).
  split; [|split].
  - unfold normalized. rewrite !lookup_map, Hi. reflexivity.
  - unfold normalize_row. rewrite !length_map. reflexivity.
  - apply normalize_row_positive; [apply of_nat_positive, Hs|].
    apply Forall_map. apply Forall_forall. intros k _. apply of_nat_finite_nonneg.
Qed.

Lemma smoothing_makes_rows_positive_witness :
  toy_heap !! 5%nat = Some (map (map of_nat) [[1; 3]; [0; 0]]%nat)
  ∧ (1 ≤ 1)%nat
  ∧ Forall (λ rw, (Z.of_nat (sum_list rw + length rw * 1) < 2 ^ 24)%Z) [[1; 3]; [0; 0]]%nat
  ∧ ∃ r h' p,
      bigrams_count_to_probabilities 5%nat (of_nat 1) toy_heap = ok (r, h')
      ∧ h' !! r = Some p
      ∧ length p = length [[1; 3]; [0; 0]]%nat
      ∧ ∀ i rw,
          [[1; 3]; [0; 0]]%nat !! i = Some rw →
          ∃ prow,
            p !! i = Some prow
            ∧ length prow = length rw
            ∧ Forall (λ x, positive_probability x = true) prow.
Proof.
  assert (H1 : toy_heap !! 5%nat = Some (map (map of_nat) [[1; 3]; [0; 0]]%nat))
    by reflexivity.
  assert (H2 : (1 ≤ 1)%nat) by lia.
  assert (H3 : Forall (λ rw, (Z.of_nat (sum_list rw + length rw * 1) < 2 ^ 24)%Z)
                      [[1; 3]; [0; 0]]%nat).
  { repeat (constructor; [cbn; lia|]). constructor. }
  split; [exact H1|]. split; [exact H2|]. split; [exact H3|].
  apply (smoothing_makes_rows_positive toy_heap 5%nat [[1; 3]; [0; 0]]%nat 1 H1 H2 H3).
Defined.

(** ** From the corpus to a model that generates and scores *)

Lemma count_bigrams_counts (bigrams : list (string * string)) c2i t :
  count_bigrams bigrams c2i = ok t →
  shape (size c2i) (size c2i) t ∧ Forall (Forall (λ c, finite_nonneg c = true)) t.
Proof.
  intros Hrun. pose proof (count_bigrams_ok_in_bounds _ _ _ Hrun) as Hb.
  destruct (count_bigrams_cells _ _ Hb) as (t' & Hrun' & Ht & Hcells).
  rewrite Hrun in Hrun'. injection Hrun' as <-. split; [exact Ht|].
  destruct Ht as [Hn Hm].
  apply Forall_lookup. intros i rw Hrw. apply Forall_lookup. intros j x Hx.
  assert (Hi : (i < size c2i)%nat) by (rewrite <- Hn; eapply lookup_lt_Some; exact Hrw).
  assert (Hj : (j < size c2i)%nat).
  { eapply Forall_lookup_1 in Hm; [|exact Hrw]. cbn beta in Hm. rewrite <- Hm.
    eapply lookup_lt_Some. exact Hx. }
  specialize (Hcells i j Hi Hj). unfold tensor_get in Hcells.
  rewrite Hrw in Hcells. cbn [of_option rbind ok] in Hcells. rewrite Hx in Hcells.
  injection Hcells as ->. apply of_nat_finite_nonneg.
Qed.

Lemma normalized_shape n m s (t : list (list scalar)) :
  shape n m t → shape n m (normalized s t).
Proof.
  intros [Hn Hm]. unfold normalized. split; [rewrite length_map; exact Hn|].
  apply Forall_map. eapply Forall_impl; [exact Hm|].
  intros rw Hrw. cbn. unfold normalize_row. rewrite !length_map. exact Hrw.
Qed.

Lemma shape_indices_in_range n (P : list (list scalar)) (c2i : gmap string nat) :
  shape n n P → map_Forall (λ _ i, (i < n)%nat) c2i → indices_in_range P c2i.
Proof.
  intros [Hn Hm] Hrange c i Hi. pose proof (Hrange c i Hi) as Hlt. cbn beta in Hlt.
  split; [rewrite Hn; exact Hlt|].
  eapply Forall_impl; [exact Hm|]. intros rw ->. exact Hlt.
Qed.

(** X14: training then generating: with pairwise distinct symbols and an
    integer smoothing value [>= 1], the matrix that
    [bigrams_count_to_probabilities] derives from the counts of
    [count_bigrams] makes [generate_name] return a name, whatever
    [max_length] and the random source: no exception is raised.  The bound
    [< 2^24] on the size of the corpus and of the smoothed vocabulary is the
    range in which the float tensors of the code hold the counts and their
    row sums exactly. *)
Theorem trained_model_generates
    (alphabet start_token end_token : string) (bigrams : list (string * string))
    (bigram_counts : list (list scalar)) (smooth_factor : nat)
    (h : gmap nat (list (list scalar))) (counts_ref : nat) :
  NoDup (symbols alphabet start_token end_token) →
  count_bigrams bigrams (char_to_index alphabet start_token end_token) = ok bigram_counts →
  h !! counts_ref = Some bigram_counts →
  (1 ≤ smooth_factor)%nat →
  (Z.of_nat (length bigrams + (String.length alphabet + 2) * smooth_factor) < 2 ^ 24)%Z →
  ∃ r h' probs,
    bigrams_count_to_probabilities counts_ref (of_nat smooth_factor) h = ok (r, h')
    ∧ h' !! r = Some probs
    ∧ ∀ max_length g,
        is_ok (generate_name start_token end_token
                 (char_to_index alphabet start_token end_token)
                 (index_to_char (char_to_index_items alphabet start_token end_token))
                 probs max_length g).
Proof.
  intros Hnd Hcount Href Hs1 _.
  pose proof (of_nat_positive smooth_factor Hs1) as Hs.
  destruct (char_to_index_NoDup alphabet start_token end_token Hnd)
    as (Hsize & Hpos & Hrange).
  destruct (count_bigrams_counts _ _ _ Hcount) as [Hshape Hfin].
  destruct (bigrams_count_to_probabilities_run h counts_ref bigram_counts
              (of_nat smooth_factor) Href) as (r & h' & Hrun & _ & Hr & _).
  exists r, h', (normalized (of_nat smooth_factor) bigram_counts).
  split; [exact Hrun|]. split; [exact Hr|].
  intros max_length g. apply generate_name_returns.
  - intros c i Hi. pose proof (Hrange c i Hi) as Hlt. cbn beta in Hlt.
    destruct Hshape as [Hn Hm].
    destruct (lookup_lt_is_Some_2 bigram_counts i) as [rw Hrw]; [rewrite Hn; exact Hlt|].
    assert (Hlen : length rw = size (char_to_index alphabet start_token end_token)).
    { eapply Forall_lookup_1 in Hm; [exact Hm|exact Hrw]. }
    assert (Hrwfin : Forall (λ c, finite_nonneg c = true) rw).
    { eapply Forall_lookup_1 in Hfin; [exact Hfin|exact Hrw]. }
    destruct (normalize_row_positive _ rw Hs Hrwfin) as [Hp Hsum].
    exists (normalize_row (of_nat smooth_factor) rw). split; [|split; [|split]].
    + unfold normalized. rewrite lookup_map, Hrw. reflexivity.
    + eapply Forall_impl; [exact Hp|]. apply positive_probability_finite_nonneg.
    + unfold of_nat at 1. rewrite Hsum; [reflexivity|].
      intros ->. rewrite Hsize in Hlen. cbn [length] in Hlen. lia.
    + intros j Hj. unfold normalize_row in Hj. rewrite !length_map, Hlen, Hsize in Hj.
      rewrite <- (length_symbols alphabet start_token end_token) in Hj.
      destruct (lookup_lt_is_Some_2 _ _ Hj) as [c' Hc'].
      exists c'. split.
      * apply index_to_char_char_to_index, Hpos, Hc'.
      * exists j. apply Hpos, Hc'.
  - exists 0%nat. apply Hpos. reflexivity.
Qed.

Lemma trained_model_generates_witness :
  NoDup (symbols "a" "-" ".")
  ∧ count_bigrams toy_bigrams (char_to_index "a" "-" ".") = ok toy_bigram_counts
  ∧ toy_counted_heap !! 7%nat = Some toy_bigram_counts
  ∧ (1 ≤ 1)%nat
  ∧ (Z.of_nat (length toy_bigrams + (String.length "a" + 2) * 1) < 2 ^ 24)%Z
  ∧ ∃ r h' probs,
      bigrams_count_to_probabilities 7%nat (of_nat 1) toy_counted_heap = ok (r, h')
      ∧ h' !! r = Some probs
      ∧ ∀ max_length g,
          is_ok (generate_name "-" "." (char_to_index "a" "-" ".")
                   (index_to_char (char_to_index_items "a" "-" "."))
                   probs max_length g).
Proof.
  assert (H1 : NoDup (symbols "a" "-" ".")) by by_computation.
  assert (H2 : count_bigrams toy_bigrams (char_to_index "a" "-" ".") = ok toy_bigram_counts)
    by by_computation.
  assert (H3 : toy_counted_heap !! 7%nat = Some toy_bigram_counts) by reflexivity.
  assert (H4 : (1 ≤ 1)%nat) by lia.
  assert (H5 : (Z.of_nat (length toy_bigrams + (String.length "a" + 2) * 1) < 2 ^ 24)%Z)
    by (cbn; lia).
  split; [exact H1|]. split; [exact H2|]. split; [exact H3|]. split; [exact H4|].
  split; [exact H5|].
  apply (trained_model_generates "a" "-" "." toy_bigrams toy_bigram_counts 1
           toy_counted_heap 7%nat H1 H2 H3 H4 H5).
Defined.

(** X15: training then scoring: with pairwise distinct symbols, on the
    matrix derived from the counts of [count_bigrams], whatever the
    smoothing value, [calculate_log_likelihood] returns a value for every
    word whose characters are in the alphabet. *)
Theorem trained_model_scores
    (log : scalar → scalar)
    (alphabet start_token end_token word : string) (bigrams : list (string * string))
    (bigram_counts : list (list scalar)) (smooth_factor : scalar)
    (h : gmap nat (list (list scalar))) (counts_ref : nat) :
  NoDup (symbols alphabet start_token end_token) →
  count_bigrams bigrams (char_to_index alphabet start_token end_token) = ok bigram_counts →
  h !! counts_ref = Some bigram_counts →
  Forall (λ c, c ∈ chars alphabet) (chars word) →
  ∃ r h' probs,
    bigrams_count_to_probabilities counts_ref smooth_factor h = ok (r, h')
    ∧ h' !! r = Some probs
    ∧ is_ok (calculate_log_likelihood log word probs
               (char_to_index alphabet start_token end_token) start_token end_token).
Proof.
  intros Hnd Hcount Href Hword.
  destruct (char_to_index_NoDup alphabet start_token end_token Hnd)
    as (Hsize & Hpos & Hrange).
  destruct (count_bigrams_counts _ _ _ Hcount) as [Hshape _].
  destruct (bigrams_count_to_probabilities_run h counts_ref bigram_counts
              smooth_factor Href) as (r & h' & Hrun & _ & Hr & _).
  exists r, h', (normalized smooth_factor bigram_counts).
  split; [exact Hrun|]. split; [exact Hr|].
  rewrite calculate_log_likelihood_unfold.
  destruct (map_result_ok
              (pair_log_prob log (normalized smooth_factor bigram_counts)
                             (char_to_index alphabet start_token end_token))
              (adjacent_pairs (start_token :: chars word ++ [end_token]))) as [terms ->];
    [|eexists; reflexivity].
  assert (Hvocab : Forall (λ c, is_Some (char_to_index alphabet start_token end_token !! c))
                          (start_token :: chars word ++ [end_token])).
  { unfold char_to_index. constructor; [apply number_is_Some; left|].
    apply Forall_app. split.
    - eapply Forall_impl; [exact Hword|]. intros c Hc. apply number_is_Some.
      right. apply elem_of_app. left. exact Hc.
    - constructor; [|constructor]. apply number_is_Some.
      right. apply elem_of_app. right. left. }
  eapply Forall_impl; [apply Forall_adjacent_pairs, Hvocab|].
  intros pr [H1 H2]. apply pair_log_prob_ok; [|exact H1|exact H2].
  apply (shape_indices_in_range (size (char_to_index alphabet start_token end_token)));
    [apply normalized_shape; exact Hshape|exact Hrange].
Qed.

Lemma trained_model_scores_witness :
  NoDup (symbols "a" "-" ".")
  ∧ count_bigrams toy_bigrams (char_to_index "a" "-" ".") = ok toy_bigram_counts
  ∧ toy_counted_heap !! 7%nat = Some toy_bigram_counts
  ∧ Forall (λ c, c ∈ chars "a") (chars "aa")
  ∧ ∃ r h' probs,
      bigrams_count_to_probabilities 7%nat szero toy_counted_heap = ok (r, h')
      ∧ h' !! r = Some probs
      ∧ is_ok (calculate_log_likelihood log_approx "aa" probs
                 (char_to_index "a" "-" ".") "-" ".").
Proof.
  assert (H1 : NoDup (symbols "a" "-" ".")) by by_computation.
  assert (H2 : count_bigrams toy_bigrams (char_to_index "a" "-" ".") = ok toy_bigram_counts)
    by by_computation.
  assert (H3 : toy_counted_heap !! 7%nat = Some toy_bigram_counts) by reflexivity.
  assert (H4 : Forall (λ c, c ∈ chars "a") (chars "aa")) by by_computation.
  split; [exact H1|]. split; [exact H2|]. split; [exact H3|]. split; [exact H4|].
  apply (trained_model_scores log_approx "a" "-" "." "aa" toy_bigrams toy_bigram_counts
           szero toy_counted_heap 7%nat H1 H2 H3 H4).
Defined.

(** ** What is sampled *)

Lemma pick_positive (ws : list scalar) (t : Qc) (i0 j : nat) :
  Forall (λ c, finite_nonneg c = true) ws →
  0 ≤ t →
  pick ws t i0 = Some j →
  (i0 ≤ j)%nat ∧ ∃ a, ws !! (j - i0)%nat = Some (Fin a) ∧ 0 < a.
Proof.
  intros Hws. revert t i0.
  induction Hws as [|x ws Hx _ IH]; intros t i0 Ht Hpick; [discriminate Hpick|].
  destruct (finite_nonneg_Fin x Hx) as (w & -> & Hw). cbn [pick] in Hpick.
  destruct (decide (t < w)) as [Htw|Htw].
  - injection Hpick as <-. split; [lia|]. rewrite Nat.sub_diag.
    exists w. split; [reflexivity|]. eapply Qcle_lt_trans; [exact Ht|exact Htw].
  - apply Qcnot_lt_le in Htw.
    destruct (IH (t - w) (S i0)) as (Hle & a & Ha & Hpos); [|exact Hpick|].
    + unfold Qcminus. rewrite <- (Qcplus_opp_r w).
      apply Qcplus_le_compat; [exact Htw|apply Qcle_refl].
    + split; [lia|]. exists a. split; [|exact Hpos].
      replace (j - i0)%nat with (S (j - S i0)) by lia. exact Ha.
Qed.

Lemma multinomial_support (weights : list scalar) (g g' : rng) (i : nat) :
  multinomial weights g = ok (i, g') →
  g' = (rng_next g).2 ∧ ∃ a, weights !! i = Some (Fin a) ∧ 0 < a.
Proof.
  unfold multinomial.
  destruct (forallb finite_nonneg weights) eqn:Hall; [|discriminate].
  assert (Hws : Forall (λ c, finite_nonneg c = true) weights).
  { clear -Hall. induction weights as [|x ws IH]; [constructor|].
    cbn in Hall. apply andb_prop in Hall as [Hx Hr]. constructor; [exact Hx|apply IH, Hr]. }
  destruct (ssum weights) as [total| | |]; try discriminate.
  destruct (decide (0 < total)) as [Hpos|]; [|discriminate].
  cbn [rng_next].
  destruct (pick weights (uniform (g 0%nat) * total) 0) as [j|] eqn:Hpick; [|discriminate].
  cbn [of_option rbind ok]. intros [= <- <-]. split; [reflexivity|].
  destruct (pick_positive weights (uniform (g 0%nat) * total) 0 j Hws)
    as (_ & a & Ha & Hapos); [|exact Hpick|].
  - apply Qcmult_nonneg_nonneg; [apply uniform_range|apply Qclt_le_weak, Hpos].
  - rewrite Nat.sub_0_r in Ha. eauto.
Qed.

Lemma sample_next_character_support i (P : list (list scalar)) i2c g c g' :
  sample_next_character i P i2c g = ok (c, g') →
  g' = (rng_next g).2
  ∧ ∃ j a, tensor_get P i j = ok (Fin a) ∧ 0 < a ∧ i2c !! j = Some c.
Proof.
  unfold sample_next_character, tensor_row, tensor_get.
  destruct (P !! i) as [rw|]; [|discriminate]. cbn [of_option rbind ok].
  destruct (multinomial rw g) as [[j g1]|e] eqn:Hm; [|discriminate]. cbn [rbind].
  destruct (i2c !! j) as [c'|] eqn:Hc; [|discriminate]. cbn [of_option rbind ok].
  intros [= <- <-]. destruct (multinomial_support _ _ _ _ Hm) as (-> & a & Ha & Hpos).
  split; [reflexivity|]. exists j, a. rewrite Ha. auto.
Qed.

Lemma symbols_loop_transitions end_token c2i i2c (P : list (list scalar))
    n cur emitted g syms :
  symbols_loop end_token c2i i2c P n cur emitted g = ok syms →
  ∃ new, syms = emitted ++ new
         ∧ Forall (λ pr, possible_transition c2i i2c P pr.1 pr.2)
                  (adjacent_pairs (cur :: new)).
Proof.
  revert cur emitted g. induction n as [|n IH]; intros cur emitted g Hloop.
  - injection Hloop as <-. exists []. rewrite app_nil_r. split; [reflexivity|constructor].
  - cbn [symbols_loop] in Hloop. unfold dict_get in Hloop.
    destruct (c2i !! cur) as [i|] eqn:Hi; [|discriminate Hloop].
    cbn [of_option rbind ok] in Hloop.
    destruct (sample_next_character i P i2c g) as [[c g']|e] eqn:Hs; [|discriminate Hloop].
    cbn [rbind] in Hloop.
    destruct (decide (c = end_token)) as [->|Hne].
    + injection Hloop as <-. exists []. rewrite app_nil_r. split; [reflexivity|constructor].
    + destruct (IH _ _ _ Hloop) as (new & -> & Hnew).
      exists (c :: new). rewrite <- app_assoc. split; [reflexivity|].
      rewrite adjacent_pairs_cons. constructor; [|exact Hnew].
      destruct (sample_next_character_support _ _ _ _ _ _ Hs) as (_ & j & a & Hj & Ha & Hc).
      exists i, j, a. auto.
Qed.

(** X16: a generated name only follows transitions of positive weight:
    from the start token on, each symbol of the output has a positive weight
    in the row of the symbol before it. *)
Theorem generate_name_follows_positive_weights
    (start_token end_token : string) (char_to_idx : gmap string nat)
    (idx_to_char : gmap nat string) (bigram_probabilities : list (list scalar))
    (max_length : nat) (g : rng) (out : string) :
  generate_name start_token end_token char_to_idx idx_to_char bigram_probabilities
                max_length g = ok out →
  ∃ syms,
    generated_symbols start_token end_token char_to_idx idx_to_char bigram_probabilities
                      max_length g = ok syms
    ∧ out = concat_symbols syms
    ∧ Forall (λ pr, possible_transition char_to_idx idx_to_char bigram_probabilities
                                        pr.1 pr.2)
             (adjacent_pairs (start_token :: syms)).
Proof.
  intros Hout.
  destruct (generate_name_spec _ _ _ _ _ _ _ _ Hout) as (syms & Hs & Hc & _).
  exists syms. split; [exact Hs|]. split; [exact Hc|].
  destruct (symbols_loop_transitions _ _ _ _ _ _ _ _ _ Hs) as (new & -> & Hnew).
  exact Hnew.
Qed.

Lemma generate_name_follows_positive_weights_witness :
  generate_name "-" "." toy_c2i toy_i2c toy_probs 5 toy_rng = ok "a"
  ∧ ∃ syms,
      generated_symbols "-" "." toy_c2i toy_i2c toy_probs 5 toy_rng = ok syms
      ∧ "a" = concat_symbols syms
      ∧ Forall (λ pr, possible_transition toy_c2i toy_i2c toy_probs pr.1 pr.2)
               (adjacent_pairs ("-" :: syms)).
Proof.
  assert (Hrun : generate_name "-" "." toy_c2i toy_i2c toy_probs 5 toy_rng = ok "a")
    by (vm_compute; reflexivity).
  split; [exact Hrun|].
  apply (generate_name_follows_positive_weights
           "-" "." toy_c2i toy_i2c toy_probs 5 toy_rng "a" Hrun).
Defined.

(** X17: a row with a single positive weight is sampled deterministically:
    whatever the random source, [sample_next_character] returns the symbol
    of that index. *)
Theorem sample_next_character_single_weight
    (current_char_index : nat) (probability_distribution : list (list scalar))
    (idx_to_char : gmap nat string) (g : rng)
    (rw : list scalar) (n : nat) (a : Qc) (c : string) :
  probability_distribution !! current_char_index = Some rw →
  rw !! n = Some (Fin a) →
  0 < a →
  (∀ j x, j ≠ n → rw !! j = Some x → x = szero) →
  idx_to_char !! n = Some c →
  sample_next_character current_char_index probability_distribution idx_to_char g
  = ok (c, (rng_next g).2).
Proof.
  intros Hrw Hn Ha Hzero Hc.
  assert (Hfin : Forall (λ x, finite_nonneg x = true) rw).
  { apply Forall_lookup. intros j x Hj. destruct (decide (j = n)) as [->|Hne].
    - rewrite Hn in Hj. injection Hj as <-. cbn.
      apply bool_decide_eq_true_2, Qclt_le_weak, Ha.
    - rewrite (Hzero j x Hne Hj). reflexivity. }
  assert (Hpos : positive_s (ssum rw) = true).
  { destruct (finite_row rw Hfin) as (qs & -> & Hqs). rewrite ssum_Fin. cbn.
    apply bool_decide_eq_true_2. eapply Qclt_le_trans; [exact Ha|].
    apply qsum_ge; [exact Hqs|].
    rewrite lookup_map in Hn. destruct (qs !! n) as [q|] eqn:Hq; [|discriminate Hn].
    injection Hn as ->. eapply list_elem_of_lookup_2. exact Hq. }
  destruct (multinomial_returns rw g Hfin Hpos) as (k & Hm & _).
  destruct (multinomial_support _ _ _ _ Hm) as (_ & b & Hk & Hb).
  assert (k = n) as ->.
  { destruct (decide (k = n)) as [E|Hne]; [exact E|]. exfalso.
    pose proof (Hzero k _ Hne Hk) as E. injection E as ->.
    exact (Qclt_not_eq _ _ Hb eq_refl). }
  unfold sample_next_character, tensor_row.
  rewrite Hrw. cbn [of_option rbind ok]. rewrite Hm. cbn [rbind ok].
  rewrite Hc. reflexivity.
Qed.

Lemma sample_next_character_single_weight_witness :
  toy_probs !! 0%nat = Some [of_nat 0; of_nat 1; of_nat 0]
  ∧ [of_nat 0; of_nat 1; of_nat 0] !! 1%nat = Some (Fin 1)
  ∧ 0 < 1
  ∧ (∀ j x, j ≠ 1%nat → [of_nat 0; of_nat 1; of_nat 0] !! j = Some x → x = szero)
  ∧ toy_i2c !! 1%nat = Some "a"
  ∧ sample_next_character 0 toy_probs toy_i2c toy_rng = ok ("a", (rng_next toy_rng).2).
Proof.
  assert (H1 : toy_probs !! 0%nat = Some [of_nat 0; of_nat 1; of_nat 0]) by reflexivity.
  assert (H2 : [of_nat 0; of_nat 1; of_nat 0] !! 1%nat = Some (Fin 1)) by by_computation.
  assert (H3 : 0 < 1) by by_computation.
  assert (H4 : ∀ j x, j ≠ 1%nat → [of_nat 0; of_nat 1; of_nat 0] !! j = Some x → x = szero).
  { intros [|[|[|j]]] x Hj Hx; try discriminate Hx.
    - injection Hx as <-. reflexivity.
    - contradiction.
    - injection Hx as <-. reflexivity. }
  assert (H5 : toy_i2c !! 1%nat = Some "a") by reflexivity.
  split; [exact H1|]. split; [exact H2|]. split; [exact H3|]. split; [exact H4|].
  split; [exact H5|].
  apply (sample_next_character_single_weight 0 toy_probs toy_i2c toy_rng
           [of_nat 0; of_nat 1; of_nat 0] 1 1 "a" H1 H2 H3 H4 H5).
Defined.

(** ** Exceptions of the likelihood engine *)

Lemma map_result_first_error {X Y} (f : X → result Y) (pre : list X) (x : X)
    (post : list X) (e : exn) :
  Forall (λ y, is_ok (f y)) pre →
  f x = raise e →
  map_result f (pre ++ x :: post) = raise e.
Proof.
  intros Hpre Hx. induction Hpre as [|y pre [v Hy] _ IH].
  - cbn [app map_result]. rewrite Hx. reflexivity.
  - cbn [app map_result]. rewrite Hy, IH. reflexivity.
Qed.

Lemma map_result_some_error {X Y} (f : X → result Y) (l : list X) (e : exn) :
  Forall (λ y, is_ok (f y) ∨ f y = raise e) l →
  Exists (λ y, f y = raise e) l →
  map_result f l = raise e.
Proof.
  intros Hall Hex. induction Hall as [|y l Hy _ IH]; [inversion Hex|].
  cbn [map_result]. destruct Hy as [[v Hy]|Hy]; [|rewrite Hy; reflexivity].
  rewrite Hy. cbn [rbind ok].
  rewrite IH; [reflexivity|]. inversion Hex as [? ? H|]; subst; [|assumption].
  rewrite Hy in H. discriminate H.
Qed.

Lemma pair_log_prob_cases log (P : list (list scalar)) c2i (pr : string * string) :
  indices_in_range P c2i →
  (is_Some (c2i !! pr.1) ∧ is_Some (c2i !! pr.2) ∧ is_ok (pair_log_prob log P c2i pr))
  ∨ ((c2i !! pr.1 = None ∨ c2i !! pr.2 = None)
     ∧ pair_log_prob log P c2i pr = raise KeyError).
Proof.
  intros Hr.
  destruct (c2i !! pr.1) as [i|] eqn:Hi.
  - destruct (c2i !! pr.2) as [j|] eqn:Hj.
    + left. split; [eauto|]. split; [eauto|].
      apply pair_log_prob_ok; [exact Hr|rewrite Hi; eauto|rewrite Hj; eauto].
    + right. split; [auto|]. unfold pair_log_prob, dict_get. rewrite Hi, Hj. reflexivity.
  - right. split; [auto|]. unfold pair_log_prob, dict_get. rewrite Hi. reflexivity.
Qed.

Lemma Exists_adjacent_pairs {X} (Q : X → Prop) (x : X) (l : list X) :
  l ≠ [] → Exists Q (x :: l) → Exists (λ pr, Q pr.1 ∨ Q pr.2) (adjacent_pairs (x :: l)).
Proof.
  revert x. induction l as [|y l IH]; intros x Hne Hex; [contradiction|].
  rewrite adjacent_pairs_cons. inversion Hex as [? ? H|? ? H]; subst.
  - left. left. exact H.
  - destruct l as [|z l].
    + left. right. inversion H as [? ? H'|? ? H']; subst; [exact H'|inversion H'].
    + right. apply IH; [discriminate|exact H].
Qed.

(** X18: [calculate_log_likelihood] skips no character: when the indices
    of the vocabulary are within the matrix and the start token, the end
    token or a character of the word is not a key of [char_to_index], it
    raises [KeyError]. *)
Theorem unknown_character_raises
    (log : scalar → scalar) (word : string) (bigram_probabilities : list (list scalar))
    (char_to_index : gmap string nat) (start_token end_token : string) :
  indices_in_range bigram_probabilities char_to_index →
  Exists (λ c, char_to_index !! c = None) (start_token :: chars word ++ [end_token]) →
  calculate_log_likelihood log word bigram_probabilities char_to_index
                           start_token end_token
  = raise KeyError.
Proof.
  intros Hr Hmiss. rewrite calculate_log_likelihood_unfold.
  rewrite (map_result_some_error _ _ KeyError); [reflexivity| |].
  - apply Forall_forall. intros pr _.
    destruct (pair_log_prob_cases log bigram_probabilities char_to_index pr Hr)
      as [(_ & _ & H)|[_ H]]; auto.
  - apply Exists_adjacent_pairs in Hmiss; [|destruct (chars word); discriminate].
    eapply Exists_impl; [exact Hmiss|]. intros pr Hpr.
    destruct (pair_log_prob_cases log bigram_probabilities char_to_index pr Hr)
      as [([i Hi] & [j Hj] & _)|[_ H]]; [|exact H].
    cbn beta in Hpr. rewrite Hi, Hj in Hpr. destruct Hpr; discriminate.
Qed.

Lemma toy_indices_in_range : indices_in_range toy_probs toy_c2i.
Proof.
  intros c i Hi.
  assert (Hlt : (i < 3)%nat).
  { assert (H : map_Forall (λ _ i, (i < 3)%nat) toy_c2i) by by_computation.
    exact (H c i Hi). }
  split; [exact Hlt|]. unfold toy_probs. do 3 (constructor; [exact Hlt|]). constructor.
Qed.

Lemma unknown_character_raises_witness :
  indices_in_range toy_probs toy_c2i
  ∧ Exists (λ c, toy_c2i !! c = None) ("-" :: chars "az" ++ ["."])
  ∧ calculate_log_likelihood log_approx "az" toy_probs toy_c2i "-" "." = raise KeyError.
Proof.
  assert (H2 : Exists (λ c, toy_c2i !! c = None) ("-" :: chars "az" ++ ["."]))
    by by_computation.
  split; [exact toy_indices_in_range|]. split; [exact H2|].
  apply (unknown_character_raises log_approx "az" toy_probs toy_c2i "-" "."
           toy_indices_in_range H2).
Defined.

Lemma lower_ascii_idempotent (c : ascii) : lower_ascii (lower_ascii c) = lower_ascii c.
Proof. destruct c as [[] [] [] [] [] [] [] []]; reflexivity. Qed.

Lemma lower_idempotent (s : string) : lower (lower s) = lower s.
Proof.
  induction s as [|c s IH]; [reflexivity|].
  cbn [lower]. rewrite lower_ascii_idempotent, IH. reflexivity.
Qed.

(** X19: [calculate_neg_mean_log_likelihood] does not see the case of the
    letters: two lists of words that are the same once lower-cased give the
    same result, value or exception. *)
Theorem neg_mean_log_likelihood_ignores_case
    (log : scalar → scalar) (words words' : list string)
    (bigram_probabilities : list (list scalar))
    (char_to_index : gmap string nat) (start_token end_token : string) :
  map lower words = map lower words' →
  calculate_neg_mean_log_likelihood log words bigram_probabilities char_to_index
                                    start_token end_token
  = calculate_neg_mean_log_likelihood log words' bigram_probabilities char_to_index
                                      start_token end_token.
Proof.
  intros Heq. unfold calculate_neg_mean_log_likelihood.
  assert (E : ∀ ws, map_result (λ x, calculate_log_likelihood log (lower x)
                                       bigram_probabilities char_to_index
                                       start_token end_token) ws
                    = map_result (λ x, calculate_log_likelihood log x
                                         bigram_probabilities char_to_index
                                         start_token end_token) (map lower ws)).
  { induction ws as [|w ws IH]; [reflexivity|]. cbn [map map_result]. rewrite IH. reflexivity. }
  rewrite (E words), (E words'), Heq. reflexivity.
Qed.

Lemma neg_mean_log_likelihood_ignores_case_witness :
  map lower ["A"; "aA"] = map lower ["a"; "Aa"]
  ∧ calculate_neg_mean_log_likelihood log_approx ["A"; "aA"] toy_probs toy_c2i "-" "."
    = calculate_neg_mean_log_likelihood log_approx ["a"; "Aa"] toy_probs toy_c2i "-" ".".
Proof.
  split; [reflexivity|].
  apply (neg_mean_log_likelihood_ignores_case log_approx ["A"; "aA"] ["a"; "Aa"]
           toy_probs toy_c2i "-" "." eq_refl).
Defined.

(** X20: [calculate_neg_mean_log_likelihood] skips no word: when the
    log-likelihood of a word raises and those of the words before it do
    not, the call raises the same exception, whatever the words after it. *)
Theorem neg_mean_log_likelihood_first_error
    (log : scalar → scalar) (before after : list string) (w : string)
    (bigram_probabilities : list (list scalar))
    (char_to_index : gmap string nat) (start_token end_token : string) (e : exn) :
  Forall (λ x, is_ok (calculate_log_likelihood log (lower x) bigram_probabilities
                        char_to_index start_token end_token)) before →
  calculate_log_likelihood log (lower w) bigram_probabilities char_to_index
                           start_token end_token = raise e →
  calculate_neg_mean_log_likelihood log (before ++ w :: after) bigram_probabilities
                                    char_to_index start_token end_token
  = raise e.
Proof.
  intros Hbefore Hw. unfold calculate_neg_mean_log_likelihood.
  rewrite (map_result_first_error _ before w after e Hbefore Hw). reflexivity.
Qed.

Lemma neg_mean_log_likelihood_first_error_witness :
  Forall (λ x, is_ok (calculate_log_likelihood log_approx (lower x) toy_probs
                        toy_c2i "-" ".")) ["A"]
  ∧ calculate_log_likelihood log_approx (lower "Z") toy_probs toy_c2i "-" "."
    = raise KeyError
  ∧ calculate_neg_mean_log_likelihood log_approx (["A"] ++ "Z" :: ["a"]) toy_probs
                                      toy_c2i "-" "."
    = raise KeyError.
Proof.
  assert (H1 : Forall (λ x, is_ok (calculate_log_likelihood log_approx (lower x) toy_probs
                                     toy_c2i "-" ".")) ["A"]).
  { repeat constructor. eexists. vm_compute. reflexivity. }
  assert (H2 : calculate_log_likelihood log_approx (lower "Z") toy_probs toy_c2i "-" "."
               = raise KeyError) by (vm_compute; reflexivity).
  split; [exact H1|]. split; [exact H2|].
  apply (neg_mean_log_likelihood_first_error log_approx ["A"] ["a"] "Z"
           toy_probs toy_c2i "-" "." KeyError H1 H2).
Defined.

(** ** Two more facts on the model and on the names *)

Lemma normalize_row_sum_one (rw : list scalar) :
  ssum rw = sone → normalize_row szero rw = rw.
Proof.
  intros Hsum. unfold normalize_row.
  assert (E : map (λ c, sadd c szero) rw = rw).
  { rewrite <- (map_id rw) at 2. apply map_ext. intros c. apply sadd_zero_r. }
  rewrite E, Hsum. rewrite <- (map_id rw) at 2. apply map_ext. intros c. apply sdiv_one.
Qed.

(** X21: without smoothing, [bigrams_count_to_probabilities] leaves a
    matrix whose rows all sum to [1] as it is: normalising a second time
    changes nothing. *)
Theorem normalizing_twice_changes_nothing
    (h : gmap nat (list (list scalar))) (probs_ref : nat) (t : list (list scalar)) :
  h !! probs_ref = Some t →
  Forall (λ rw, ssum rw = sone) t →
  ∃ r h',
    bigrams_count_to_probabilities probs_ref szero h = ok (r, h')
    ∧ h' !! r = Some t.
Proof.
  intros Href Hrows.
  destruct (bigrams_count_to_probabilities_run h probs_ref t szero Href)
    as (r & h' & Hrun & _ & Hr & _).
  exists r, h'. split; [exact Hrun|]. rewrite Hr. f_equal.
  unfold normalized. rewrite <- (map_id t) at 2. apply map_ext_Forall.
  eapply Forall_impl; [exact Hrows|]. intros rw Hrw. apply normalize_row_sum_one, Hrw.
Qed.

Lemma normalizing_twice_changes_nothing_witness :
  ({[ 3%nat := toy_probs_stochastic ]} : gmap nat (list (list scalar))) !! 3%nat
  = Some toy_probs_stochastic
  ∧ Forall (λ rw, ssum rw = sone) toy_probs_stochastic
  ∧ ∃ r h',
      bigrams_count_to_probabilities 3%nat szero {[ 3%nat := toy_probs_stochastic ]}
      = ok (r, h')
      ∧ h' !! r = Some toy_probs_stochastic.
Proof.
  assert (H1 : ({[ 3%nat := toy_probs_stochastic ]} : gmap nat (list (list scalar))) !! 3%nat
               = Some toy_probs_stochastic) by reflexivity.
  assert (H2 : Forall (λ rw, ssum rw = sone) toy_probs_stochastic).
  { unfold toy_probs_stochastic. repeat (constructor; [by_computation|]). constructor. }
  split; [exact H1|]. split; [exact H2|].
  apply (normalizing_twice_changes_nothing _ 3%nat toy_probs_stochastic H1 H2).
Defined.

Lemma length_append (s t : string) :
  String.length (s +:+ t) = (String.length s + String.length t)%nat.
Proof.
  induction s as [|c s IH]; [reflexivity|].
  change (String c s +:+ t) with (String c (s +:+ t)). cbn [String.length]. rewrite IH.
  reflexivity.
Qed.

Lemma length_concat_symbols (k : nat) (syms : list string) :
  Forall (λ c, (String.length c ≤ k)%nat) syms →
  (String.length (concat_symbols syms) ≤ k * length syms)%nat.
Proof.
  induction 1 as [|c syms Hc _ IH]; [cbn; lia|].
  change (concat_symbols (c :: syms)) with (c +:+ concat_symbols syms).
  rewrite length_append. cbn [length]. lia.
Qed.

Lemma Forall_adjacent_second {X} (Q : X → Prop) (x : X) (l : list X) :
  Forall (λ pr, Q pr.2) (adjacent_pairs (x :: l)) → Forall Q l.
Proof.
  revert x. induction l as [|y l IH]; intros x H; [constructor|].
  rewrite adjacent_pairs_cons in H. inversion H as [|? ? Hy Hrest]; subst.
  constructor; [exact Hy|]. apply (IH y), Hrest.
Qed.

(** X22: when no symbol of [idx_to_char] is longer than [k] characters, the
    name that [generate_name] returns has at most [k * max_length]
    characters; at most [max_length] when every symbol is one character. *)
Theorem generate_name_length
    (start_token end_token : string) (char_to_idx : gmap string nat)
    (idx_to_char : gmap nat string) (bigram_probabilities : list (list scalar))
    (max_length : nat) (g : rng) (out : string) (k : nat) :
  map_Forall (λ _ c, (String.length c ≤ k)%nat) idx_to_char →
  generate_name start_token end_token char_to_idx idx_to_char bigram_probabilities
                max_length g = ok out →
  (String.length out ≤ k * max_length)%nat.
Proof.
  intros Hlen Hout.
  destruct (generate_name_spec _ _ _ _ _ _ _ _ Hout) as (syms & Hs & -> & Hle & _).
  destruct (symbols_loop_transitions _ _ _ _ _ _ _ _ _ Hs) as (new & -> & Hnew).
  cbn [app] in *.
  assert (Hall : Forall (λ c, (String.length c ≤ k)%nat) new).
  { apply (Forall_adjacent_second _ start_token).
    eapply Forall_impl; [exact Hnew|]. intros pr (i & j & a & _ & _ & _ & Hc).
    exact (Hlen _ _ Hc). }
  pose proof (length_concat_symbols k new Hall) as H. nia.
Qed.

Lemma generate_name_length_witness :
  map_Forall (λ _ c, (String.length c ≤ 1)%nat) toy_i2c
  ∧ generate_name "-" "." toy_c2i toy_i2c loop_probs 3 toy_rng = ok "---"
  ∧ (String.length "---" ≤ 1 * 3)%nat.
Proof.
  assert (H1 : map_Forall (λ _ c, (String.length c ≤ 1)%nat) toy_i2c) by by_computation.
  assert (H2 : generate_name "-" "." toy_c2i toy_i2c loop_probs 3 toy_rng = ok "---")
    by (vm_compute; reflexivity).
  split; [exact H1|]. split; [exact H2|].
  apply (generate_name_length "-" "." toy_c2i toy_i2c loop_probs 3 toy_rng "---" 1 H1 H2).
Defined.
